(** * do-it-tomorrow: ScheduledAt expressions and the Firestore processor

    A shallow embedding of

    - [domain/ScheduledAt/DateFunctions.ts] ([evaluate]),
    - [domain/ScheduledAt.ts] ([fromQueryLanguage]), and
    - the [FirestoreProcessor] class (claim, execute, complete loop),

    with the parts of the JavaScript run time they rely on: strings,
    [Date] objects, promises of Firestore transactions. *)

From Stdlib Require Import ZArith Ascii String List Lia Bool.
From stdpp Require Import base option list strings sorting gmap.

Local Open Scope Z_scope.

(** ** JavaScript strings

    A string is a sequence of code units; the model keeps the code units
    below 256 (Rocq's [ascii]), which covers every character the grammar
    of [evaluate] looks at. *)
Module Js.

(** [\s] of a regular expression, which is also what [trim] strips:
    TAB, LF, VT, FF, CR, SPACE and NBSP are the members below 256. *)
Definition is_space (c : ascii) : bool :=
  match nat_of_ascii c with
  | 9 | 10 | 11 | 12 | 13 | 32 | 160 => true
  | _ => false
  end%nat.

(** [\d] *)
Definition is_digit (c : ascii) : bool :=
  let n := nat_of_ascii c in ((48 <=? n) && (n <=? 57))%nat.

(** [s.split(sep)] for a one-character separator: never empty. *)
Fixpoint split (sep : ascii) (s : string) : list string :=
  match s with
  | EmptyString => [EmptyString]
  | String c s' =>
      if Ascii.eqb c sep then EmptyString :: split sep s'
      else match split sep s' with
           | piece :: pieces => String c piece :: pieces
           | [] => [String c EmptyString]
           end
  end.

Fixpoint trimStart (s : string) : string :=
  match s with
  | String c s' => if is_space c then trimStart s' else s
  | EmptyString => EmptyString
  end.

Fixpoint trimEnd (s : string) : string :=
  match s with
  | EmptyString => EmptyString
  | String c s' =>
      match trimEnd s' with
      | EmptyString => if is_space c then EmptyString else String c EmptyString
      | t => String c t
      end
  end.

(** [s.trim()] *)
Definition trim (s : string) : string := trimEnd (trimStart s).

(** [s.split(re)] where [re] is a run of white space followed by a
    capture of everything after it (the [s] flag lets the dot cross
    line ends): the text before the first run of white space, then the
    capture, then the empty remainder; a string without white space is
    returned whole. *)
Fixpoint split_space_rest (s : string) : list string :=
  match s with
  | EmptyString => [EmptyString]
  | String c s' =>
      if is_space c then [EmptyString; trimStart s'; EmptyString]
      else match split_space_rest s' with
           | piece :: pieces => String c piece :: pieces
           | [] => [String c EmptyString]
           end
  end.

(** The longest prefix of [s] made of characters in [p], and the rest. *)
Fixpoint span (p : ascii → bool) (s : string) : string * string :=
  match s with
  | String c s' =>
      if p c then let '(a, b) := span p s' in (String c a, b)
      else (EmptyString, s)
  | EmptyString => (EmptyString, EmptyString)
  end.

(** [s.replace(/\s/g, <empty>)] *)
Fixpoint remove_spaces (s : string) : string :=
  match s with
  | String c s' => if is_space c then remove_spaces s' else String c (remove_spaces s')
  | EmptyString => EmptyString
  end.

Definition digit_value (c : ascii) : Z := Z.of_nat (nat_of_ascii c) - 48.

Fixpoint digits_value (acc : Z) (s : string) : Z :=
  match s with
  | String c s' => digits_value (10 * acc + digit_value c) s'
  | EmptyString => acc
  end.

(** [Number(s)] on an optional sign followed by decimal digits, the
    only strings [evaluate] passes to it. *)
Definition Number (s : string) : Z :=
  match s with
  | String "-" ds => - digits_value 0 ds
  | String "+" ds => digits_value 0 ds
  | _ => digits_value 0 s
  end.

(** [a || b] on strings: the empty string is the only falsy one. *)
Definition logical_or (a b : string) : string :=
  match a with
  | EmptyString => b
  | _ => a
  end.

(** A template literal prints [undefined] for a missing value, and
    [RegExp.prototype.exec] converts its argument the same way. *)
Definition to_string (v : option string) : string :=
  match v with
  | Some s => s
  | None => "undefined"
  end.

End Js.

(** ** JavaScript numbers and dates

    The numbers of this program are integers (milliseconds, calendar
    fields) or [NaN]; [None] is [NaN]. *)
Definition Num : Type := option Z.

Definition num_add (a b : Num) : Num := x ← a; y ← b; Some (x + y).
Definition num_sub (a b : Num) : Num := x ← a; y ← b; Some (x - y).
Definition num_mul (a b : Num) : Num := x ← a; y ← b; Some (x * y).

(** A [Date] object holds a time value: milliseconds since the epoch, or
    [NaN] for an Invalid Date. *)
Record Date : Type := mkDate { getTime : Num }.

Definition InvalidDate : Date := mkDate None.

Definition maxTime : Z := 8640000000000000.

(** [TimeClip]: a time value further than 10^8 days from the epoch is
    not a date. *)
Definition TimeClip (n : Num) : Num :=
  t ← n; if Z.abs t <=? maxTime then Some t else None.

(** [new Date(value)] *)
Definition Date_of_value (n : Num) : Date := mkDate (TimeClip n).

Definition msPerDay : Z := 86400000.

Definition Day (t : Z) : Z := t / msPerDay.
Definition TimeWithinDay (t : Z) : Z := t mod msPerDay.

(** Days since the epoch of the first day of month [m] (1 to 12), plus
    [d - 1], in the proleptic Gregorian calendar. *)
Definition days_from_civil (y m d : Z) : Z :=
  let y := if m <=? 2 then y - 1 else y in
  let era := y / 400 in
  let yoe := y - era * 400 in
  let doy := (153 * (if 2 <? m then m - 3 else m + 9) + 2) / 5 + d - 1 in
  let doe := yoe * 365 + yoe / 4 - yoe / 100 + doy in
  era * 146097 + doe - 719468.

(** Year, month (1 to 12) and day of the month of a day number. *)
Definition civil_from_days (z : Z) : Z * Z * Z :=
  let z := z + 719468 in
  let era := z / 146097 in
  let doe := z - era * 146097 in
  let yoe := (doe - doe / 1460 + doe / 36524 - doe / 146096) / 365 in
  let y := yoe + era * 400 in
  let doy := doe - (365 * yoe + yoe / 4 - yoe / 100) in
  let mp := (5 * doy + 2) / 153 in
  let d := doy - (153 * mp + 2) / 5 + 1 in
  let m := if mp <? 10 then mp + 3 else mp - 9 in
  (if m <=? 2 then y + 1 else y, m, d).

Definition YearFromTime (t : Z) : Z := (civil_from_days (Day t)).1.1.
Definition MonthFromTime (t : Z) : Z := (civil_from_days (Day t)).1.2 - 1.
Definition DateFromTime (t : Z) : Z := (civil_from_days (Day t)).2.
Definition HourFromTime (t : Z) : Z := (t / 3600000) mod 24.
Definition MinFromTime (t : Z) : Z := (t / 60000) mod 60.
Definition SecFromTime (t : Z) : Z := (t / 1000) mod 60.
Definition msFromTime (t : Z) : Z := t mod 1000.

Definition MakeTime (hour min sec ms : Z) : Z :=
  hour * 3600000 + min * 60000 + sec * 1000 + ms.

Definition MakeDay (year month date : Z) : Z :=
  days_from_civil (year + month / 12) (month mod 12 + 1) 1 + date - 1.

Definition MakeDate (day time : Z) : Z := day * msPerDay + time.

(** What the program takes from its host: the time zone of the process
    ([LocalTZA t true] is the offset of local time at the UTC time [t],
    [LocalTZA t false] the offset at the local time [t]), the wall clock
    read by [new Date()], and date-fns' [parse(dateString, formatString,
    referenceDate)], which returns an Invalid Date for a string that does
    not match the format. *)
Record Host : Type := {
  LocalTZA : Z → bool → Z;
  wallClock : Date;
  parse : string → string → Date → Date
}.

Section LocalTime.
Context (host : Host).

Definition LocalTime (t : Z) : Z := t + LocalTZA host t true.
Definition UTC (t : Z) : Z := t - LocalTZA host t false.

Definition getFullYear (d : Date) : Num := t ← getTime d; Some (YearFromTime (LocalTime t)).
Definition getMonth (d : Date) : Num := t ← getTime d; Some (MonthFromTime (LocalTime t)).
Definition getDate (d : Date) : Num := t ← getTime d; Some (DateFromTime (LocalTime t)).
Definition getHours (d : Date) : Num := t ← getTime d; Some (HourFromTime (LocalTime t)).
Definition getMinutes (d : Date) : Num := t ← getTime d; Some (MinFromTime (LocalTime t)).
Definition getSeconds (d : Date) : Num := t ← getTime d; Some (SecFromTime (LocalTime t)).
Definition getMilliseconds (d : Date) : Num := t ← getTime d; Some (msFromTime (LocalTime t)).

(** [new Date(year, month, date, hours, minutes, seconds, ms)]: the
    fields are local time, a year from 0 to 99 means 1900 + year, and
    fields out of their range carry over. *)
Definition Date_of_fields (year month date hours minutes seconds ms : Num) : Date :=
  Date_of_value
    (y ← year; m ← month; dt ← date; h ← hours; mi ← minutes; s ← seconds; milli ← ms;
     let yr := if (0 <=? y) && (y <=? 99) then 1900 + y else y in
     Some (UTC (MakeDate (MakeDay yr m dt) (MakeTime h mi s milli)))).
End LocalTime.

(** The injected clock; [evaluate] reads it at most once. *)
Record Clock : Type := { now : Date }.

(** How a call ends: with a value, or by throwing [new Error(message)]. *)
Inductive Completion (A : Type) : Type :=
  | Return (a : A)
  | Throw (message : string).
Arguments Return {A} a.
Arguments Throw {A} message.

(** ** [DateFunctions.ts] *)
Module DateFunctions.

(** The alternatives of the unit group of the regular expression. *)
Definition unit_alternatives : list string :=
  ["s"; "m"; "h"; "d"; "second"; "seconds"; "months"; "month"; "months"; "year"; "years"].

(** [/^([+-]?\s*\d+)\s*(<unit>)$/.exec(s)]: the two captures.  The
    character classes are disjoint, so the greedy match is the only
    one: backtracking never finds another. *)
Definition regexp_exec (s : string) : option (string * string) :=
  let '(sign, s1) :=
    match s with
    | String c r =>
        if Ascii.eqb c "+" then ("+", r)
        else if Ascii.eqb c "-" then ("-", r)
        else (EmptyString, s)
    | EmptyString => (EmptyString, s)
    end in
  let '(spaces, s2) := Js.span Js.is_space s1 in
  let '(digits, s3) := Js.span Js.is_digit s2 in
  match digits with
  | EmptyString => None
  | _ =>
      let '(_, unit) := Js.span Js.is_space s3 in
      if decide (unit ∈ unit_alternatives)
      then Some (sign +:+ spaces +:+ digits, unit)
      else None
  end.

Definition format : string := "yyyy-MM-dd'T'HH:mm:ss.SSSxxx".

Definition evaluate (host : Host) (s : string) (clock : Clock) : Completion Date :=
  let elements := Js.split "|" s in
  let dateString := Js.trim (nth 0 elements EmptyString) in
  let date :=
    if String.eqb dateString "now" then now clock
    else parse host dateString format (wallClock host) in
  if (length elements =? 1)%nat then Return date
  else if (2 <? length elements)%nat then
    Throw ("Cannot parse '" +:+ s +:+ "', max. one operation on dates currently supported")
  else
    let operation := Js.trim (nth 1 elements EmptyString) in
    let parts := Js.split_space_rest operation in
    let operator := nth 0 parts EmptyString in
    let amountAndUnit := parts !! 1%nat in
    if String.eqb operator "add" then
      match regexp_exec (Js.to_string amountAndUnit) with
      | None => Throw ("Cannot parse amountAndUnit '" +:+ Js.to_string amountAndUnit +:+ "'")
      | Some (m1, unit) =>
          let amount := Some (Js.Number (Js.remove_spaces m1)) in
          let plus (ms : Z) := Date_of_value (num_add (getTime date) (num_mul amount (Some ms))) in
          if String.eqb unit "s" then Return (plus 1000)
          else if String.eqb unit "m" then Return (plus (60 * 1000))
          else if String.eqb unit "h" then Return (plus (60 * 60 * 1000))
          else if String.eqb unit "d" then Return (plus (24 * 60 * 60 * 1000))
          else if String.eqb unit (Js.logical_or "month" "months") then
            Return (Date_of_fields host
                      (getFullYear host date)
                      (num_add (getMonth host date) amount)
                      (getDate host date)
                      (getHours host date)
                      (getMinutes host date)
                      (getSeconds host date)
                      (getMilliseconds host date))
          else if String.eqb unit (Js.logical_or "year" "years") then
            Return (Date_of_fields host
                      (num_add (getFullYear host date) amount)
                      (getMonth host date)
                      (getDate host date)
                      (getHours host date)
                      (getMinutes host date)
                      (getSeconds host date)
                      (getMilliseconds host date))
          else Throw ("Unknown unit " +:+ unit)
      end
    else Throw ("Unknown operation " +:+ operation).

End DateFunctions.

(** ** The expressions [evaluate] accepts, as a grammar

    Written independently of [evaluate], to state what it rejects:
    anything without a bar, then a bar, then [add], an optional sign, a
    decimal number and one of the units [s], [m], [h], [d], [month],
    [year], with white space allowed around each part (and required after
    [add]). *)
Module Grammar.

Fixpoint every (p : ascii → bool) (s : string) : bool :=
  match s with
  | EmptyString => true
  | String c s' => p c && every p s'
  end.

Definition not_bar (c : ascii) : bool := negb (Ascii.eqb c "|").

Definition spaces (s : string) : Prop := every Js.is_space s = true.




(** The first character of [s], if any, is not in [p]. *)
Definition stops (p : ascii → bool) (s : string) : Prop :=
  match s with
  | EmptyString => True
  | String c _ => p c = false
  end.

(** A string that [trimEnd] leaves alone and that is not empty. *)
Definition fixed (s : string) : Prop := Js.trimEnd s = s ∧ s ≠ EmptyString.


End Grammar.

(** ** [evaluate] in parts

    The same code cut at its branches, for the proofs: [evaluate] is
    [start_date] when there is no operation and [apply_operation] on
    [start_date] when there is one ([evaluate_no_operation],
    [evaluate_one_operation]). *)
Module Parts.

(** The date [evaluate] starts from. *)
Definition start_date (host : Host) (dateString : string) (clock : Clock) : Date :=
  if String.eqb dateString "now" then now clock
  else parse host dateString DateFunctions.format (wallClock host).

(** The [switch] of [evaluate] on the unit. *)
Definition switch_unit (host : Host) (date : Date) (amount : Num) (unit : string)
    : Completion Date :=
  let plus (ms : Z) := Date_of_value (num_add (getTime date) (num_mul amount (Some ms))) in
  if String.eqb unit "s" then Return (plus 1000)
  else if String.eqb unit "m" then Return (plus (60 * 1000))
  else if String.eqb unit "h" then Return (plus (60 * 60 * 1000))
  else if String.eqb unit "d" then Return (plus (24 * 60 * 60 * 1000))
  else if String.eqb unit (Js.logical_or "month" "months") then
    Return (Date_of_fields host
              (getFullYear host date)
              (num_add (getMonth host date) amount)
              (getDate host date)
              (getHours host date)
              (getMinutes host date)
              (getSeconds host date)
              (getMilliseconds host date))
  else if String.eqb unit (Js.logical_or "year" "years") then
    Return (Date_of_fields host
              (num_add (getFullYear host date) amount)
              (getMonth host date)
              (getDate host date)
              (getHours host date)
              (getMinutes host date)
              (getSeconds host date)
              (getMilliseconds host date))
  else Throw ("Unknown unit " +:+ unit).

(** The branch of [evaluate] for one operation. *)
Definition apply_operation (host : Host) (date : Date) (operation : string) : Completion Date :=
  let parts := Js.split_space_rest operation in
  let operator := nth 0 parts EmptyString in
  let amountAndUnit := parts !! 1%nat in
  if String.eqb operator "add" then
    match DateFunctions.regexp_exec (Js.to_string amountAndUnit) with
    | None => Throw ("Cannot parse amountAndUnit '" +:+ Js.to_string amountAndUnit +:+ "'")
    | Some (m1, unit) => switch_unit host date (Some (Js.Number (Js.remove_spaces m1))) unit
    end
  else Throw ("Unknown operation " +:+ operation).

End Parts.

(** ** date-fns

    [parse] of date-fns, a dependency of the repository, on the one
    format string [evaluate] passes to it: a numeric field of the format
    takes between one and as many digits as the field has letters, the
    quoted [T] and the punctuation stand for themselves, [xxx] is an
    offset from UTC written [+hh:mm] or [-hh:mm] with two digits each
    (or [Z]), and nothing but white space may follow.  A string that
    does not match, or whose fields are out of range, gives an Invalid
    Date; the reference date only supplies the fields a format leaves
    out, and this one leaves out none. *)
Module DateFns.

Fixpoint digits (n : nat) (s : string) : string * string :=
  match n, s with
  | S n', String c s' =>
      if Js.is_digit c then let '(a, b) := digits n' s' in (String c a, b)
      else (EmptyString, s)
  | _, _ => (EmptyString, s)
  end.

Definition number (n : nat) (s : string) : option (Z * string) :=
  let '(ds, rest) := digits n s in
  match ds with
  | EmptyString => None
  | _ => Some (Js.digits_value 0 ds, rest)
  end.

Definition literal (c : ascii) (s : string) : option string :=
  match s with
  | String c' s' => if Ascii.eqb c c' then Some s' else None
  | EmptyString => None
  end.

(** Two digits, no less. *)
Definition two_digits (s : string) : option (Z * string) :=
  match s with
  | String a (String b rest) =>
      if Js.is_digit a && Js.is_digit b
      then Some (10 * Js.digit_value a + Js.digit_value b, rest)
      else None
  | _ => None
  end.

Definition timezone (s : string) : option (Z * string) :=
  match s with
  | String "Z" rest => Some (0, rest)
  | String sign rest =>
      '(hh, rest) ← two_digits rest;
      rest ← literal ":" rest;
      '(mm, rest) ← two_digits rest;
      let offset := hh * 3600000 + mm * 60000 in
      if Ascii.eqb sign "+" then Some (offset, rest)
      else if Ascii.eqb sign "-" then Some (- offset, rest)
      else None
  | EmptyString => None
  end.

Definition daysInMonth (year month : Z) : Z :=
  days_from_civil (year + month / 12) (month mod 12 + 1) 1 - days_from_civil year month 1.

Definition in_range (lo x hi : Z) : bool := (lo <=? x) && (x <=? hi).

Definition parse_iso (dateString : string) : option Z :=
  '(year, rest) ← number 4 dateString;
  rest ← literal "-" rest;
  '(month, rest) ← number 2 rest;
  rest ← literal "-" rest;
  '(day, rest) ← number 2 rest;
  rest ← literal "T" rest;
  '(hours, rest) ← number 2 rest;
  rest ← literal ":" rest;
  '(minutes, rest) ← number 2 rest;
  rest ← literal ":" rest;
  '(seconds, rest) ← number 2 rest;
  rest ← literal "." rest;
  '(ms, rest) ← number 3 rest;
  '(offset, rest) ← timezone rest;
  match Js.trimStart rest with
  | EmptyString =>
      if (1 <=? year) && in_range 1 month 12 && in_range 1 day (daysInMonth year month)
         && in_range 0 hours 23 && in_range 0 minutes 59 && in_range 0 seconds 59
      then Some (MakeDate (days_from_civil year month day) (MakeTime hours minutes seconds ms) - offset)
      else None
  | _ => None
  end.

Definition parse (dateString formatString : string) (referenceDate : Date) : Date :=
  if String.eqb formatString "yyyy-MM-dd'T'HH:mm:ss.SSSxxx"
  then Date_of_value (parse_iso dateString)
  else InvalidDate.

End DateFns.

(** A host in the UTC time zone whose wall clock shows [wall]. *)
Definition utc_host (wall : Date) : Host :=
  {| LocalTZA := λ _ _, 0; wallClock := wall; parse := DateFns.parse |}.

(** ** Firestore

    The three collections under the processor's root document.  A
    document of [queued] or [running] holds the data of a job; a document
    of [complete] is the object literal [markJobAsComplete] writes. *)
Inductive Collection : Type := Queued | Running | Complete.

#[global] Instance Collection_eq_dec : EqDecision Collection.
Proof. solve_decision. Defined.

Definition Path : Type := Collection * string.

(** The fields of a [JobDefinition] the processor reads: [id], and
    [scheduledAt.date] for the execution lag. *)
Module JobDefinition.
Record ScheduledAt : Type := { date : Date }.
Record t : Type := { id : string; scheduledAt : ScheduledAt }.
End JobDefinition.
Abbreviation JobDefinition := JobDefinition.t.

Module Axios.
Record Response : Type := { status : Z }.
End Axios.

Section Documents.
Context {D : Type}.

Record CompletionRecord : Type := {
  jobDefinition : D;
  status : Z;
  executionLagMs : Num;
  durationMs : Num
}.

Inductive Document : Type :=
  | JobDocument (data : D)
  | CompletionDocument (record : CompletionRecord).

Definition Firestore : Type := Collection → gmap string Document.

Definition update (c : Collection) (f : gmap string Document → gmap string Document)
    (db : Firestore) : Firestore :=
  λ c', if decide (c = c') then f (db c') else db c'.
End Documents.
Arguments CompletionRecord D : clear implicits.
Arguments Document D : clear implicits.
Arguments Firestore D : clear implicits.

(** What the processor is given besides the database: the codec
    [JobDefinition.firestoreCodec] (absent from the sources, so a
    parameter), and the place of a document in Firestore's order on the
    field [scheduledAt] ([None]: the document has no such field, and an
    [orderBy] on it leaves the document out). *)
Class Codec (D : Type) : Type := {
  decode : Document D → option JobDefinition;
  encode : JobDefinition → D;
  scheduledAt_key : Document D → option Z
}.

(** What a promise is rejected with, and what a [Left] holds. *)
Inductive Reason : Type :=
  | Undefined
  | ErrorObject (code : option Z) (message : string)
  | DecodeErrors
  | TaskOfUndefined.

(** [new Error(message)]: an error object without a [code] property. *)
Definition newError (message : string) : Reason := ErrorObject None message.

(** [isFirebaseError]: [e?.code !== undefined]. *)
Definition isFirebaseError (e : Reason) : bool :=
  match e with
  | ErrorObject (Some _) _ => true
  | _ => false
  end.

Section Transactions.
Context {D : Type}.

(** The writes the processor buffers in a transaction. *)
Inductive Write : Type :=
  | DeleteExisting (path : Path)              (* transaction.delete(ref, { exists: true }) *)
  | Create (path : Path) (doc : Document D).  (* transaction.create(ref, data) *)

Definition NOT_FOUND : Reason := ErrorObject (Some 5) "NOT_FOUND".
Definition ALREADY_EXISTS : Reason := ErrorObject (Some 6) "ALREADY_EXISTS".

Definition apply_write (db : Firestore D) (w : Write) : Reason + Firestore D :=
  match w with
  | DeleteExisting (c, id) =>
      match db c !! id with
      | Some _ => inr (update c (delete id) db)
      | None => inl NOT_FOUND
      end
  | Create (c, id) doc =>
      match db c !! id with
      | None => inr (update c (insert id doc) db)
      | Some _ => inl ALREADY_EXISTS
      end
  end.

Fixpoint commit (ws : list Write) (db : Firestore D) : Reason + Firestore D :=
  match ws with
  | [] => inr db
  | w :: ws' =>
      match apply_write db w with
      | inr db' => commit ws' db'
      | inl e => inl e
      end
  end.

(** A job is in one collection at a time: its place is its lifecycle
    state. *)
Definition exclusive (db : Firestore D) : Prop :=
  ∀ (c1 c2 : Collection) (id : string),
    is_Some (db c1 !! id) → is_Some (db c2 !! id) → c1 = c2.

(** One attempt of a transaction ([maxAttempts: 1]) at the server:
    [fault] is a failure of the attempt that does not come from the
    writes (the network, permissions, an exception in the SDK); without
    one the writes are committed together or not at all. *)
Definition attempt (ws : list Write) (fault : option Reason) (db : Firestore D)
    : (Reason + unit) * Firestore D :=
  match fault with
  | Some e => (inl e, db)
  | None =>
      match commit ws db with
      | inr db' => (inr tt, db')
      | inl e => (inl e, db)
      end
  end.
End Transactions.
Arguments Write D : clear implicits.

(** A document of a query result.  The processor only holds snapshots of
    its query on [queued], so [ref] is the document's place there. *)
Module QueryDocumentSnapshot.
Record t (D : Type) : Type := { id : string; data : Document D }.
Arguments id {D} _.
Arguments data {D} _.
Definition ref {D} (doc : t D) : Path := (Queued, id doc).
End QueryDocumentSnapshot.
Abbreviation QueryDocumentSnapshot := QueryDocumentSnapshot.t.

(** ** lodash

    [_.shuffle] copies the array and runs [shuffleSelf] on the copy: at
    each index it swaps the element with one drawn from the positions
    from that index to the last.  [random] holds what [Math.random] will
    return, already scaled to natural numbers. *)
Module Lodash.
Definition swap {A} (array : list A) (index rand : nat) : list A :=
  match array !! rand, array !! index with
  | Some value, Some x => <[index := value]> (<[rand := x]> array)
  | _, _ => array
  end.

Definition baseRandom (lower upper : nat) (r : nat) : nat :=
  (lower + r mod (upper - lower + 1))%nat.

Fixpoint shuffleSelf {A} (steps index : nat) (array : list A) (random : list nat)
    : list A * list nat :=
  match steps with
  | O => (array, random)
  | S steps' =>
      let lastIndex := (length array - 1)%nat in
      let rand := baseRandom index lastIndex (hd O random) in
      shuffleSelf steps' (S index) (swap array index rand) (tl random)
  end.

Definition shuffle {A} (collection : list A) (random : list nat) : list A * list nat :=
  shuffleSelf (length collection) 0 collection random.
End Lodash.

(** ** The processor and its world *)
Inductive ProcessorState : Type := idle | running | closed.

#[global] Instance ProcessorState_eq_dec : EqDecision ProcessorState.
Proof. solve_decision. Defined.

(** The fields of a [FirestoreProcessor] that change: [unsubscribe]
    names the listener the stored function detaches, [reject] the promise
    the stored function rejects. *)
Record Processor : Type := {
  state : ProcessorState;
  unsubscribe : option nat;
  reject : option nat
}.

(** What others do while the processor is suspended. *)
Inductive Action (D : Type) : Type :=
  | CallClose                          (* the owner calls close() *)
  | Commits (writes : list (Write D))  (* another client commits a batch *)
  | SetClock (d : Date).               (* the injected clock moves *)
Arguments CallClose {D}.
Arguments Commits {D} writes.
Arguments SetClock {D} d.

(** What the event loop delivers, in order. *)
Inductive Event (D : Type) : Type :=
  | Act (a : Action D)
  | Snapshot                           (* the listeners are called with the query's current result *)
  | ListenError (e : Reason)           (* the listeners' error callback is called *)
  | TxAttempt (fault : option Reason)  (* the server processes the pending transaction *)
  | Response (r : Reason + Axios.Response).  (* the pending HTTP call settles *)
Arguments Act {D} a.
Arguments Snapshot {D}.
Arguments ListenError {D} e.
Arguments TxAttempt {D} fault.
Arguments Response {D} r.

Record World (D : Type) : Type := {
  this : Processor;
  firestore : Firestore D;
  listeners : gset nat;      (* the attached snapshot listeners *)
  pending : gset nat;        (* the promises of waitForNextJob not settled yet *)
  fresh : nat;               (* the next listener and promise *)
  clock : Clock;
  console : list Reason;     (* console.log("Error: " + e), latest first *)
  random : list nat;
  events : list (Event D)
}.
Arguments this {D} _.
Arguments firestore {D} _.
Arguments listeners {D} _.
Arguments pending {D} _.
Arguments fresh {D} _.
Arguments clock {D} _.
Arguments console {D} _.
Arguments random {D} _.
Arguments events {D} _.

(** How a task ends: [Pending] when its promise is still unsettled once
    every event has been delivered. *)
Inductive Outcome (A : Type) : Type :=
  | Right (a : A)
  | Left (e : Reason)
  | Pending.
Arguments Right {A} a.
Arguments Left {A} e.
Arguments Pending {A}.

Section Setters.
Context {D : Type}.

Abbreviation World := (World D).

Definition set_this (p : Processor) (w : World) : World :=
  {| this := p; firestore := firestore w; listeners := listeners w; pending := pending w;
     fresh := fresh w; clock := clock w; console := console w; random := random w;
     events := events w |}.
Definition set_firestore (db : Firestore D) (w : World) : World :=
  {| this := this w; firestore := db; listeners := listeners w; pending := pending w;
     fresh := fresh w; clock := clock w; console := console w; random := random w;
     events := events w |}.
Definition set_listeners (ls : gset nat) (w : World) : World :=
  {| this := this w; firestore := firestore w; listeners := ls; pending := pending w;
     fresh := fresh w; clock := clock w; console := console w; random := random w;
     events := events w |}.
Definition set_pending (ps : gset nat) (w : World) : World :=
  {| this := this w; firestore := firestore w; listeners := listeners w; pending := ps;
     fresh := fresh w; clock := clock w; console := console w; random := random w;
     events := events w |}.
Definition set_fresh (n : nat) (w : World) : World :=
  {| this := this w; firestore := firestore w; listeners := listeners w; pending := pending w;
     fresh := n; clock := clock w; console := console w; random := random w;
     events := events w |}.
Definition set_clock (c : Clock) (w : World) : World :=
  {| this := this w; firestore := firestore w; listeners := listeners w; pending := pending w;
     fresh := fresh w; clock := c; console := console w; random := random w;
     events := events w |}.
Definition set_console (l : list Reason) (w : World) : World :=
  {| this := this w; firestore := firestore w; listeners := listeners w; pending := pending w;
     fresh := fresh w; clock := clock w; console := l; random := random w;
     events := events w |}.
Definition set_random (r : list nat) (w : World) : World :=
  {| this := this w; firestore := firestore w; listeners := listeners w; pending := pending w;
     fresh := fresh w; clock := clock w; console := console w; random := r;
     events := events w |}.
Definition set_events (evs : list (Event D)) (w : World) : World :=
  {| this := this w; firestore := firestore w; listeners := listeners w; pending := pending w;
     fresh := fresh w; clock := clock w; console := console w; random := random w;
     events := evs |}.

End Setters.

(** ** Tasks (fp-ts [TaskEither])

    A task runs in a world and leaves another; [None] when the model ran
    out of fuel. *)
Definition TaskEither (D A : Type) : Type := World D → option (Outcome A * World D).

Module TE.
Section Combinators.
Context {D : Type}.

(** [TE.of], which is [TE.right] ([of] is a keyword here). *)
Definition right {A} (a : A) : TaskEither D A := λ w, Some (Right a, w).
Definition left {A} (e : Reason) : TaskEither D A := λ w, Some (Left e, w).

Definition fromEither {A} (e : Reason + A) : TaskEither D A :=
  match e with
  | inr a => right a
  | inl e => left e
  end.

Definition chainW {A B} (f : A → TaskEither D B) (ma : TaskEither D A) : TaskEither D B :=
  λ w, match ma w with
       | Some (Right a, w') => f a w'
       | Some (Left e, w') => Some (Left e, w')
       | Some (Pending, w') => Some (Pending, w')
       | None => None
       end.

Definition chainFirstW {A B} (f : A → TaskEither D B) (ma : TaskEither D A) : TaskEither D A :=
  chainW (λ a, chainW (λ _, right a) (f a)) ma.

Definition orElseW {A} (f : Reason → TaskEither D A) (ma : TaskEither D A) : TaskEither D A :=
  λ w, match ma w with
       | Some (Left e, w') => f e w'
       | other => other
       end.

(** [TE.tryCatch(() => promise, onRejected)]: a rejection becomes a
    [Left] of what [onRejected] returns; [onRejected] may act on the
    world (it may log). *)
Definition tryCatch {A} (promise : TaskEither D A)
    (onRejected : Reason → World D → Reason * World D) : TaskEither D A :=
  λ w, match promise w with
       | Some (Left e, w') => let '(e', w'') := onRejected e w' in Some (Left e', w'')
       | other => other
       end.

End Combinators.
End TE.

(** A promise is a task too: [Right] when fulfilled, [Left] when
    rejected.  [promise.catch(handler)] with a handler that throws. *)
Definition Promise_catch {D A} (handler : Reason → Reason) (promise : TaskEither D A)
    : TaskEither D A :=
  TE.orElseW (λ e, TE.left (handler e)) promise.

(** What [processJob] hands to [markJobAsComplete]. *)
Module Execution.
Record t : Type := {
  axiosResponse : Axios.Response;
  durationMs : Num;
  executionStartDate : Date
}.
End Execution.

(** ** [FirestoreProcessor] *)
Section FirestoreProcessor.
Context {D : Type} `{!Codec D}.

Import QueryDocumentSnapshot.

(** [close()] *)
Definition close (w : World D) : World D :=
  let w := set_this {| state := closed;
                       unsubscribe := unsubscribe (this w);
                       reject := reject (this w) |} w in
  (* this.unsubscribe && this.unsubscribe() *)
  let w := match unsubscribe (this w) with
           | Some l => set_listeners (listeners w ∖ {[l]}) w
           | None => w
           end in
  (* this.reject && this.reject() *)
  match reject (this w) with
  | Some p => set_pending (pending w ∖ {[p]}) w
  | None => w
  end.

Definition act (a : Action D) (w : World D) : World D :=
  match a with
  | CallClose => close w
  | Commits writes => set_firestore (attempt writes None (firestore w)).2 w
  | SetClock d => set_clock {| now := d |} w
  end.

(** Suspended until the event loop delivers an event [pick] accepts;
    what others do in the meantime happens to the world. *)
Fixpoint await {X} (pick : Event D → option X) (evs : list (Event D)) (w : World D)
    : option X * World D :=
  match evs with
  | [] => (None, set_events [] w)
  | Act a :: evs' => await pick evs' (act a w)
  | e :: evs' =>
      match pick e with
      | Some x => (Some x, set_events evs' w)
      | None => await pick evs' w
      end
  end.

(** [firestore.runTransaction(async (transaction) => writes,
    { maxAttempts: 1 })] *)
Definition next_attempt (w : World D) : option (option Reason) * World D :=
  await (λ e, match e with TxAttempt fault => Some fault | _ => None end) (events w) w.

Definition runTransaction (writes : list (Write D)) : TaskEither D unit :=
  λ w, match next_attempt w with
       | (None, w') => Some (Pending, w')
       | (Some fault, w') =>
           let '(r, db) := attempt writes fault (firestore w') in
           Some (match r with inr _ => Right tt | inl e => Left e end, set_firestore db w')
       end.

(** [axios.post("http://localhost:3001", { callbackId })] *)
Definition next_response (w : World D) : option (Reason + Axios.Response) * World D :=
  await (λ e, match e with Response r => Some r | _ => None end) (events w) w.

Definition axios_post (callbackId : string) : TaskEither D Axios.Response :=
  λ w, match next_response w with
       | (None, w') => Some (Pending, w')
       | (Some (inr response), w') => Some (Right response, w')
       | (Some (inl e), w') => Some (Left e, w')
       end.

Definition alreadyTaken : Reason :=
  newError "Cannot process job, it's already taken by another worker".

(** The body of the transaction of [markJobAsRunning]. *)
Definition claim_writes (jobDocument : QueryDocumentSnapshot D) : list (Write D) :=
  [ DeleteExisting (ref jobDocument);
    Create (Running, id jobDocument) (data jobDocument) ].

Definition markJobAsRunning (jobDocument : QueryDocumentSnapshot D) : TaskEither D unit :=
  TE.tryCatch
    (Promise_catch
       (λ e, if isFirebaseError e then alreadyTaken else e)
       (runTransaction (claim_writes jobDocument)))
    (λ e w, (e, w)).

(** The body of the transaction of [markJobAsComplete]. *)
Definition completion_writes (jobDefinition : JobDefinition) (execution : Execution.t)
    : list (Write D) :=
  let axiosResponse := Execution.axiosResponse execution in
  let durationMs := Execution.durationMs execution in
  let executionStartDate := Execution.executionStartDate execution in
  [ Create (Complete, JobDefinition.id jobDefinition)
      (CompletionDocument
         {| jobDefinition := encode jobDefinition;
            status := Axios.status axiosResponse;
            executionLagMs :=
              num_sub (getTime executionStartDate)
                (getTime (JobDefinition.date (JobDefinition.scheduledAt jobDefinition)));
            durationMs := durationMs |});
    DeleteExisting (Running, JobDefinition.id jobDefinition) ].

Definition markJobAsComplete (jobDefinition : JobDefinition) (execution : Execution.t)
    : TaskEither D unit :=
  TE.chainW
    (λ _,
       TE.tryCatch
         (runTransaction (completion_writes jobDefinition execution))
         (λ e w, (TaskOfUndefined, set_console (e :: console w) w)))
    (TE.right (Execution.axiosResponse execution)).

Definition processJob (jobDefinition : JobDefinition) : TaskEither D unit :=
  TE.chainW (markJobAsComplete jobDefinition)
    (TE.chainW
       (λ jobDefinition,
          TE.tryCatch
            (λ w,
               let executionStartDate := now (clock w) in
               TE.chainW
                 (λ axiosResponse w',
                    Some (Right {| Execution.axiosResponse := axiosResponse;
                                   Execution.executionStartDate := executionStartDate;
                                   Execution.durationMs :=
                                     num_sub (getTime (now (clock w')))
                                       (getTime executionStartDate) |}, w'))
                 (axios_post (JobDefinition.id jobDefinition)) w)
            (λ e w, (e, w)))
       (TE.right jobDefinition)).

(** *** The query on the queue

    [collection("queued").orderBy("scheduledAt", "asc").limit(5)]:
    Firestore orders by the field, then by document id. *)
Definition key_of (entry : string * Document D) : Z := default 0 (scheduledAt_key entry.2).

Definition entry_le (a b : string * Document D) : Prop :=
  key_of a < key_of b ∨ (key_of a = key_of b ∧ String.le a.1 b.1).

#[global] Instance entry_le_dec : RelDecision entry_le.
Proof. intros a b. unfold entry_le. apply _. Defined.

Definition queuedQuery (db : Firestore D) : list (QueryDocumentSnapshot D) :=
  (λ entry, {| id := entry.1; data := entry.2 |})
    <$> take 5 (merge_sort entry_le
                  (filter (λ entry, is_Some (scheduledAt_key entry.2))
                     (map_to_list (db Queued)))).

(** Documents in the order of the field [scheduledAt]. *)
Definition scheduledAt_le (a b : QueryDocumentSnapshot D) : Prop :=
  default 0 (scheduledAt_key (data a)) ≤ default 0 (scheduledAt_key (data b)).

Inductive Waited : Type :=
  | Resolved (snapshot : list (QueryDocumentSnapshot D))
  | Rejected (reason : Reason)
  | StillWaiting.

(** The promise of [waitForNextJob] with its listener attached. *)
Fixpoint await_snapshot (promise listener : nat) (evs : list (Event D)) (w : World D)
    : Waited * World D :=
  match evs with
  | [] => (StillWaiting, set_events [] w)
  | Act a :: evs' =>
      let w := act a w in
      if decide (promise ∈ pending w) then await_snapshot promise listener evs' w
      else (Rejected Undefined, set_events evs' w)
  | Snapshot :: evs' =>
      if decide (listener ∈ listeners w) then
        let snapshot := queuedQuery (firestore w) in
        if (length snapshot =? 0)%nat then
          (* Just wait *)
          await_snapshot promise listener evs' w
        else
          (* this.unsubscribe && this.unsubscribe(); resolve(snapshot) *)
          let w := match unsubscribe (this w) with
                   | Some l => set_listeners (listeners w ∖ {[l]}) w
                   | None => w
                   end in
          (Resolved snapshot, set_events evs' (set_pending (pending w ∖ {[promise]}) w))
      else await_snapshot promise listener evs' w
  | ListenError e :: evs' =>
      if decide (listener ∈ listeners w) then
        (Rejected e,
         set_events evs'
           (set_pending (pending w ∖ {[promise]})
              (set_listeners (listeners w ∖ {[listener]}) w)))
      else await_snapshot promise listener evs' w
  | _ :: evs' => await_snapshot promise listener evs' w
  end.

(** [new Promise((resolve, reject) => { this.reject = reject;
    this.unsubscribe = query.onSnapshot(..., reject) })] *)
Definition listen : TaskEither D (list (QueryDocumentSnapshot D)) :=
  λ w,
    let n := fresh w in
    let w := set_fresh (S n) w in
    let w := set_this {| state := state (this w);
                         unsubscribe := Some n;
                         reject := Some n |} w in
    let w := set_listeners ({[n]} ∪ listeners w) (set_pending ({[n]} ∪ pending w) w) in
    match await_snapshot n n (events w) w with
    | (Resolved snapshot, w') => Some (Right snapshot, w')
    | (Rejected e, w') => Some (Left e, w')
    | (StillWaiting, w') => Some (Pending, w')
    end.

Definition shuffled (docs : list (QueryDocumentSnapshot D))
    (k : list (QueryDocumentSnapshot D) → TaskEither D JobDefinition)
    : TaskEither D JobDefinition :=
  λ w, let '(docs', random') := Lodash.shuffle docs (random w) in
       k docs' (set_random random' w).

Fixpoint waitForNextJob (fuel : nat) : TaskEither D JobDefinition :=
  match fuel with
  | O => λ _, None
  | S fuel' =>
      λ w,
        if decide (state (this w) = closed) then
          TE.left (newError "Processor is not running") w
        else
          TE.chainW
            (λ snapshot,
               TE.chainW
                 (λ snapshot,
                    if (length snapshot =? 0)%nat then
                      (* continue to wait for the next job *)
                      waitForNextJob fuel'
                    else
                      shuffled snapshot (λ docs, takeFirstValidAvailableJob fuel' docs 0))
                 (TE.right snapshot))
            (TE.tryCatch listen (λ e w, (newError "Could not get next job", w)))
            w
  end
with takeFirstValidAvailableJob (fuel : nat) (docs : list (QueryDocumentSnapshot D))
    (index : nat) : TaskEither D JobDefinition :=
  match fuel with
  | O => λ _, None
  | S fuel' =>
      match docs !! index with
      | None => waitForNextJob fuel'
      | Some jobDocument =>
          TE.orElseW
            (λ _, takeFirstValidAvailableJob fuel' docs (index + 1))
            (* Take next one if it fails *)
            (TE.chainFirstW
               (λ _, markJobAsRunning jobDocument) (* Must fail if the job is already running *)
               (TE.fromEither
                  (match decode (data jobDocument) with
                   | Some jobDefinition => inr jobDefinition
                   | None => inl DecodeErrors
                   end)))
      end
  end.


Fixpoint takeNextJob (fuel : nat) : TaskEither D unit :=
  match fuel with
  | O => λ _, None
  | S fuel' =>
      TE.chainW
        (λ _, takeNextJob fuel')
        (TE.chainFirstW
           (λ jobDefinition, processJob jobDefinition)
           (waitForNextJob fuel'))
  end.

(** [run()] sets the state and starts the loop; it returns at once,
    and nothing ever reads how the loop ends.  Here the loop is run
    through the events of the world, and how it ends is the result. *)
Definition run (fuel : nat) : TaskEither D unit :=
  λ w, takeNextJob fuel
         (set_this {| state := running;
                      unsubscribe := unsubscribe (this w);
                      reject := reject (this w) |} w).

(** A task that leaves a closed processor closed. *)
Definition keeps_closed {A} (task : TaskEither D A) : Prop :=
  ∀ w o w', state (this w) = closed → task w = Some (o, w') → state (this w') = closed.
End FirestoreProcessor.
Arguments keeps_closed D {A} task.

(** ** A concrete store, for examples *)
Module Sample.
Inductive Data : Type :=
  | Encoded (job : JobDefinition)
  | Garbage.

#[global] Instance codec : Codec Data := {|
  decode doc := match doc with JobDocument (Encoded job) => Some job | _ => None end;
  encode job := Encoded job;
  scheduledAt_key doc :=
    match doc with
    | JobDocument (Encoded job) => getTime (JobDefinition.date (JobDefinition.scheduledAt job))
    | _ => None
    end
|}.

Definition job (id : string) (scheduledAt : Z) : JobDefinition :=
  {| JobDefinition.id := id;
     JobDefinition.scheduledAt := {| JobDefinition.date := mkDate (Some scheduledAt) |} |}.

Definition doc (id : string) (scheduledAt : Z) : Document Data :=
  JobDocument (Encoded (job id scheduledAt)).

Definition store (q r c : list (string * Document Data)) : Firestore Data :=
  λ collection,
    match collection with
    | Queued => list_to_map q
    | Running => list_to_map r
    | Complete => list_to_map c
    end.

Definition world (db : Firestore Data) (time : Z) (random : list nat)
    (events : list (Event Data)) : World Data :=
  {| this := {| state := idle; unsubscribe := None; reject := None |};
     firestore := db;
     listeners := ∅;
     pending := ∅;
     fresh := 0;
     clock := {| now := mkDate (Some time) |};
     console := [];
     random := random;
     events := events |}.


Definition two_jobs : Firestore Data := store [("a", doc "a" 10); ("b", doc "b" 5)] [] [].
Definition a_running : Firestore Data := store [] [("a", doc "a" 10)] [].

Definition snapshot_a : QueryDocumentSnapshot Data :=
  {| QueryDocumentSnapshot.id := "a"; QueryDocumentSnapshot.data := doc "a" 10 |}.
Definition snapshot_b : QueryDocumentSnapshot Data :=
  {| QueryDocumentSnapshot.id := "b"; QueryDocumentSnapshot.data := doc "b" 5 |}.

(** A failure of the network, as gRPC reports it. *)
Definition unavailable : Reason := ErrorObject (Some 14) "UNAVAILABLE".

(** The clock shows 100 when job [a] starts and 142 when its callback
    answers 200. *)
Definition execution_events : list (Event Data) :=
  [Act (SetClock (mkDate (Some 142))); Response (inr {| Axios.status := 200 |});
   TxAttempt None].
Definition execution_start : World Data := world a_running 100 [] execution_events.
Definition execution_answered : World Data :=
  set_events [TxAttempt None] (set_clock {| now := mkDate (Some 142) |} execution_start).
End Sample.

(** ** [ScheduledAt.ts] *)
Module ScheduledAt.
End ScheduledAt.

(** ** Measures for the properties of [evaluate] *)
Module Units.
(** The length of the units [evaluate] adds as a number of
    milliseconds. *)
Definition milliseconds (unit : string) : option Z :=
  if String.eqb unit "s" then Some 1000
  else if String.eqb unit "m" then Some 60000
  else if String.eqb unit "h" then Some 3600000
  else if String.eqb unit "d" then Some 86400000
  else None.

End Units.

(** ** The calendar, seen from March

    [days_from_civil] counts in years that start on the first of March,
    so that the leap day comes last. *)
Module March.
Definition year (y m : Z) : Z := if m <=? 2 then y - 1 else y.
Definition month (m : Z) : Z := if 2 <? m then m - 3 else m + 9.
End March.

(** ** What a run of the loop is measured against *)
Section Measures.
Context {D : Type}.

(** The promise of a task is still unsettled. *)
Definition is_pending {A} (o : Outcome A) : bool :=
  match o with
  | Pending => true
  | _ => false
  end.

(** A write of another client. *)
Definition foreign (e : Event D) : bool :=
  match e with
  | Act (Commits _) => true
  | _ => false
  end.

(** No other client writes to the store. *)
Definition undisturbed (evs : list (Event D)) : Prop := Forall (λ e, foreign e = false) evs.

(** The job id is somewhere in the store. *)
Definition held (db : Firestore D) (id : string) : Prop := ∃ c, is_Some (db c !! id).

(** The step [R] covers what a task does: [R w b w'] where [b] tells
    whether the task is left pending. *)
Definition within {A} (R : World D → bool → World D → Prop) (task : TaskEither D A) : Prop :=
  ∀ w o w', task w = Some (o, w') → R w (is_pending o) w'.

(** Steps that take the store along [S], as long as no other client
    writes. *)
Definition store_step (S : Firestore D → Firestore D → Prop)
    (w : World D) (b : bool) (w' : World D) : Prop :=
  undisturbed (events w) → undisturbed (events w') ∧ S (firestore w) (firestore w').

(** The members of [Y] are in [X], but for [last] when [b]. *)
Definition at_most (X : gset nat) (b : bool) (last : option nat) (Y : gset nat) : Prop :=
  ∀ n, n ∈ Y → n ∈ X ∨ (b = true ∧ last = Some n).

(** Steps that attach no listener and start no wait, but for the one
    the processor remembers while it is pending. *)
Definition listener_step (w : World D) (b : bool) (w' : World D) : Prop :=
  at_most (listeners w) b (unsubscribe (this w')) (listeners w')
  ∧ at_most (pending w) b (reject (this w')) (pending w').

(** The events still to come after a task are among those there were. *)
Definition consumes (w : World D) (b : bool) (w' : World D) : Prop :=
  events w' `suffix_of` events w.

(** Steps that log nothing. *)
Definition silent (w : World D) (b : bool) (w' : World D) : Prop := console w' = console w.
End Measures.

(** * Properties of [evaluate] *)

(** ** Strings *)
Section Strings.
Import Js Grammar DateFunctions.

Lemma append_cons c a b : String c a +:+ b = String c (a +:+ b).
Proof. reflexivity. Qed.

Lemma append_nil_l s : EmptyString +:+ s = s.
Proof. reflexivity. Qed.

Lemma append_nil_r s : s +:+ EmptyString = s.
Proof. induction s as [|c s IH]; [done|]. by rewrite append_cons, IH. Qed.

Lemma append_assoc a b c : (a +:+ b) +:+ c = a +:+ b +:+ c.
Proof. induction a as [|x a IH]; [done|]. by rewrite !append_cons, IH. Qed.

Lemma every_app p a b : every p (a +:+ b) = every p a && every p b.
Proof.
  induction a as [|c a IH]; [done|].
  rewrite append_cons. simpl. by rewrite IH, andb_assoc.
Qed.

Lemma every_impl (p q : ascii → bool) s :
  (∀ c, p c = true → q c = true) → every p s = true → every q s = true.
Proof.
  intros Hpq. induction s as [|c s IH]; [done|]. simpl.
  intros [Hc Hs]%andb_true_iff. rewrite (Hpq _ Hc). by apply IH.
Qed.



Lemma split_no_bar s : every not_bar s = true → split "|" s = [s].
Proof.
  induction s as [|c s IH]; [done|]. simpl. unfold not_bar at 1.
  destruct (Ascii.eqb c "|"); simpl; [done|]. intros Hs. by rewrite (IH Hs).
Qed.


Lemma split_app_bar a b :
  every not_bar a = true → split "|" (a +:+ String "|" b) = a :: split "|" b.
Proof.
  induction a as [|c a IH]; [done|]. simpl. unfold not_bar at 1.
  destruct (Ascii.eqb c "|") eqn:Hc; simpl; [done|]. intros Ha.
  by rewrite (IH Ha).
Qed.




Lemma trimStart_spaces sp s : spaces sp → trimStart (sp +:+ s) = trimStart s.
Proof.
  unfold spaces. induction sp as [|c sp IH]; [done|]. simpl.
  intros [Hc Hsp]%andb_true_iff. rewrite Hc. auto.
Qed.

Lemma trimEnd_all_spaces sp : spaces sp → trimEnd sp = EmptyString.
Proof.
  unfold spaces. induction sp as [|c sp IH]; [done|]. simpl.
  intros [Hc Hsp]%andb_true_iff. by rewrite (IH Hsp), Hc.
Qed.

Lemma trimEnd_spaces s sp : spaces sp → trimEnd (s +:+ sp) = trimEnd s.
Proof.
  intros Hsp. induction s as [|c s IH]; simpl.
  - by apply trimEnd_all_spaces.
  - by rewrite IH.
Qed.

Lemma trimEnd_app_fixed x y :
  trimEnd y = y → y ≠ EmptyString → trimEnd (x +:+ y) = x +:+ y.
Proof.
  intros Hy Hne. induction x as [|c x IH]; [done|].
  rewrite append_cons. simpl. rewrite IH.
  destruct (x +:+ y) eqn:Hxy; [|done].
  destruct x; [by destruct (Hne Hxy)|discriminate].
Qed.

Lemma trimStart_stops s : stops is_space s → trimStart s = s.
Proof. destruct s as [|c s]; [done|]. simpl. by intros ->. Qed.


Lemma span_app p a b : every p a = true → stops p b → span p (a +:+ b) = (a, b).
Proof.
  intros Ha Hb. induction a as [|c a IH].
  - destruct b as [|c b]; [done|]. simpl in *. by rewrite Hb.
  - simpl in Ha. apply andb_true_iff in Ha as [Hc Ha].
    rewrite append_cons. simpl. by rewrite Hc, (IH Ha).
Qed.

Lemma stops_app p a b : a ≠ EmptyString → stops p a → stops p (a +:+ b).
Proof. by destruct a. Qed.

Lemma every_stops (p q : ascii → bool) a b :
  (∀ c, p c = true → q c = false) → every p a = true → stops q b → stops q (a +:+ b).
Proof. intros Hpq Ha Hb. destruct a as [|c a]; [done|]. simpl in *. apply Hpq. by apply andb_true_iff in Ha as [? _]. Qed.

Ltac by_cases_on c :=
  destruct c as [[] [] [] [] [] [] [] []]; vm_compute; first [reflexivity | discriminate | tauto].

Lemma space_not_digit c : is_space c = true → is_digit c = false.
Proof. by_cases_on c. Qed.

Lemma digit_not_space c : is_digit c = true → is_space c = false.
Proof. by_cases_on c. Qed.

Lemma space_not_bar c : is_space c = true → not_bar c = true.
Proof. by_cases_on c. Qed.

Lemma digit_not_bar c : is_digit c = true → not_bar c = true.
Proof. by_cases_on c. Qed.

Lemma space_not_sign c : is_space c = true → Ascii.eqb c "+" = false ∧ Ascii.eqb c "-" = false.
Proof. by_cases_on c. Qed.

Lemma digit_not_sign c : is_digit c = true → Ascii.eqb c "+" = false ∧ Ascii.eqb c "-" = false.
Proof. by_cases_on c. Qed.


Lemma unit_alternative_shape unit :
  unit ∈ unit_alternatives →
  every not_bar unit = true ∧ unit ≠ EmptyString
  ∧ stops is_space unit ∧ stops is_digit unit ∧ trimEnd unit = unit.
Proof.
  unfold unit_alternatives. rewrite !elem_of_cons, elem_of_nil.
  intros [->|[->|[->|[->|[->|[->|[->|[->|[->|[->|[->|[]]]]]]]]]]]]; by vm_compute.
Qed.


Lemma sign_cases sign :
  sign ∈ [EmptyString; "+"; "-"] → sign = EmptyString ∨ sign = "+" ∨ sign = "-".
Proof. rewrite !elem_of_cons, elem_of_nil. tauto. Qed.


Lemma regexp_exec_complete sign sp3 digits sp4 unit :
  sign ∈ [EmptyString; "+"; "-"] → spaces sp3 →
  every is_digit digits = true → digits ≠ EmptyString →
  spaces sp4 → unit ∈ unit_alternatives →
  regexp_exec (sign +:+ sp3 +:+ digits +:+ sp4 +:+ unit) = Some (sign +:+ sp3 +:+ digits, unit).
Proof.
  intros Hsign Hsp3 Hdigits Hne Hsp4 Halt.
  destruct (unit_alternative_shape _ Halt) as (_ & Hune & Hus & Hud & _).
  assert (Hstop3 : stops is_space (digits +:+ sp4 +:+ unit)).
  { destruct digits as [|d ds]; [done|]. simpl in *.
    apply andb_true_iff in Hdigits as [Hd _]. by apply digit_not_space. }
  assert (Hstop4 : stops is_digit (sp4 +:+ unit)).
  { by apply (every_stops is_space); [apply space_not_digit|..]. }
  assert (Hrest : ∀ s1, s1 = sp3 +:+ digits +:+ sp4 +:+ unit →
    (let '(spaces, s2) := span is_space s1 in
     let '(ds, s3) := span is_digit s2 in
     match ds with
     | EmptyString => None
     | _ => let '(_, u) := span is_space s3 in
            if decide (u ∈ unit_alternatives) then Some (sign +:+ spaces +:+ ds, u) else None
     end) = Some (sign +:+ sp3 +:+ digits, unit)).
  { intros s1 ->. rewrite (span_app _ _ _ Hsp3 Hstop3), (span_app _ _ _ Hdigits Hstop4).
    destruct digits as [|d ds]; [done|]. rewrite (span_app _ _ _ Hsp4 Hus).
    by rewrite decide_True. }
  unfold regexp_exec.
  apply sign_cases in Hsign as [->|[->| ->]]; [|by apply Hrest..].
  change (EmptyString +:+ ?x) with x.
  destruct (sp3 +:+ digits +:+ sp4 +:+ unit) as [|c r] eqn:Hs; [by apply Hrest|].
  assert (Hc : Ascii.eqb c "+" = false ∧ Ascii.eqb c "-" = false).
  { destruct sp3 as [|c' sp3'].
    - destruct digits as [|d ds]; [done|]. simpl in Hs, Hdigits. injection Hs as -> _.
      apply andb_true_iff in Hdigits as [Hd _]. by apply digit_not_sign.
    - simpl in Hs. injection Hs as -> _. unfold spaces in Hsp3. simpl in Hsp3.
      apply andb_true_iff in Hsp3 as [Hc' _]. by apply space_not_sign. }
  destruct Hc as [-> ->]. rewrite <- Hs. by apply Hrest.
Qed.


Lemma split_space_rest_add sp rest :
  spaces sp → sp ≠ EmptyString →
  split_space_rest ("add" +:+ sp +:+ rest) = ["add"; trimStart rest; EmptyString].
Proof.
  intros Hsp Hne. destruct sp as [|c sp]; [done|]. unfold spaces in Hsp. simpl in Hsp.
  apply andb_true_iff in Hsp as [Hc Hsp]. simpl. rewrite Hc.
  by rewrite trimStart_spaces.
Qed.
(** *** The amount *)
Lemma remove_spaces_app a b : remove_spaces (a +:+ b) = remove_spaces a +:+ remove_spaces b.
Proof.
  induction a as [|c a IH]; [done|]. rewrite append_cons. simpl.
  destruct (is_space c); [done|]. by rewrite append_cons, IH.
Qed.

Lemma remove_spaces_spaces sp : spaces sp → remove_spaces sp = EmptyString.
Proof.
  unfold spaces. induction sp as [|c sp IH]; [done|]. simpl.
  intros [Hc Hsp]%andb_true_iff. rewrite Hc. auto.
Qed.

Lemma remove_spaces_digits ds : every is_digit ds = true → remove_spaces ds = ds.
Proof.
  induction ds as [|c ds IH]; [done|]. simpl.
  intros [Hc Hds]%andb_true_iff. rewrite (digit_not_space _ Hc). by rewrite IH.
Qed.

Lemma remove_spaces_amount sign sp3 digits :
  sign ∈ [EmptyString; "+"; "-"] → spaces sp3 → every is_digit digits = true →
  remove_spaces (sign +:+ sp3 +:+ digits) = sign +:+ digits.
Proof.
  intros Hsign Hsp3 Hdigits.
  rewrite !remove_spaces_app, (remove_spaces_spaces _ Hsp3), (remove_spaces_digits _ Hdigits).
  by destruct (sign_cases _ Hsign) as [->|[->| ->]].
Qed.
End Strings.

(** ** [evaluate] against the grammar *)
Section Evaluate.
Import Js Grammar DateFunctions Parts.


Lemma evaluate_one_operation host s clock a b :
  split "|" s = [a; b] →
  evaluate host s clock = apply_operation host (start_date host (trim a) clock) (trim b).
Proof. intros Hs. unfold evaluate. by rewrite Hs. Qed.




Lemma fixed_app x y : fixed y → fixed (x +:+ y).
Proof.
  intros [Hy Hne]. split; [by apply trimEnd_app_fixed|].
  destruct x; [done|discriminate].
Qed.

Lemma apply_operation_add host date sp2 sign sp3 digits sp4 unit :
  spaces sp2 → sp2 ≠ EmptyString → sign ∈ [EmptyString; "+"; "-"] → spaces sp3 →
  every is_digit digits = true → digits ≠ EmptyString → spaces sp4 →
  unit ∈ unit_alternatives →
  apply_operation host date ("add" +:+ sp2 +:+ sign +:+ sp3 +:+ digits +:+ sp4 +:+ unit)
  = switch_unit host date (Some (Js.Number (sign +:+ digits))) unit.
Proof.
  intros Hsp2 Hne2 Hsign Hsp3 Hdigits Hne Hsp4 Hunit.
  unfold apply_operation. rewrite (split_space_rest_add _ _ Hsp2 Hne2).
  cbn [nth lookup list_lookup Js.to_string].
  assert (Hre : ∃ m1, regexp_exec (trimStart (sign +:+ sp3 +:+ digits +:+ sp4 +:+ unit))
                      = Some (m1, unit) ∧ remove_spaces m1 = sign +:+ digits).
  { destruct (sign_cases _ Hsign) as [->|[->| ->]].
    - change (EmptyString +:+ ?x) with x. rewrite (trimStart_spaces _ _ Hsp3).
      rewrite trimStart_stops.
      + exists (EmptyString +:+ EmptyString +:+ digits). split.
        * by apply (regexp_exec_complete EmptyString EmptyString).
        * by apply (remove_spaces_amount EmptyString EmptyString).
      + destruct digits as [|c ds]; [done|]. simpl in *.
        apply andb_true_iff in Hdigits as [Hc _]. by apply digit_not_space.
    - eexists. change (trimStart ("+" +:+ ?x)) with ("+" +:+ x). split.
      + by apply regexp_exec_complete.
      + by apply remove_spaces_amount.
    - eexists. change (trimStart ("-" +:+ ?x)) with ("-" +:+ x). split.
      + by apply regexp_exec_complete.
      + by apply remove_spaces_amount. }
  destruct Hre as (m1 & -> & ->). done.
Qed.



End Evaluate.

(** ** The claims on [evaluate] *)
Section Claims.
Import Js Grammar DateFunctions Parts.

Lemma evaluate_now_add_minus_1h host clock :
  evaluate host "now | add -1h" clock
  = Return (Date_of_value (num_add (getTime (now clock)) (Some (- 3600000)))).
Proof. reflexivity. Qed.





(** C6, as amended.  Against a clock that shows [T], [now | add -1h]
    is [T] minus 3600000 milliseconds whenever that is a time value a
    [Date] can hold; the host (its wall clock, its time zone, its
    parser) plays no part. *)
Theorem evaluate_now_minus_one_hour host clock T :
  getTime (now clock) = Some T →
  Z.abs (T - 3600000) ≤ maxTime →
  evaluate host "now | add -1h" clock = Return (mkDate (Some (T - 3600000))).
Proof.
  intros Hnow Hrange. rewrite evaluate_now_add_minus_1h, Hnow.
  unfold Date_of_value, TimeClip, num_add. simpl.
  replace (T + -3600000) with (T - 3600000) by lia.
  by rewrite (proj2 (Z.leb_le _ _) Hrange).
Qed.

Lemma evaluate_now_minus_one_hour_witness :
  evaluate (utc_host (mkDate (Some 1700000000000))) "now | add -1h"
    {| now := mkDate (Some 1600000000000) |}
  = Return (mkDate (Some (1600000000000 - 3600000))).
Proof.
  apply (evaluate_now_minus_one_hour _ _ 1600000000000); [reflexivity|].
  unfold maxTime. lia.
Defined.

(** C6, the claim as stated fails at the first hour of the range of
    [Date]: one hour before the earliest date is no date. *)
Lemma evaluate_now_minus_one_hour_earliest :
  evaluate (utc_host (mkDate (Some 0))) "now | add -1h"
    {| now := Date_of_value (Some (- 8640000000000000)) |}
  = Return InvalidDate.
Proof. reflexivity. Qed.

(** C5: the claim holds of no input, the code throws.  Whatever the
    amount, the unit words [months] and [years] pass the regular
    expression and then fall to the [default] of the [switch], whose
    cases are ["month" || "months"] and ["year" || "years"], that is
    [month] and [year]. *)
Theorem evaluate_months_years_unknown_unit host clock sign digits :
  sign ∈ [EmptyString; "+"; "-"] →
  every is_digit digits = true → digits ≠ EmptyString →
  evaluate host ("now | add " +:+ sign +:+ digits +:+ " months") clock
  = Throw "Unknown unit months"
  ∧ evaluate host ("now | add " +:+ sign +:+ digits +:+ " years") clock
    = Throw "Unknown unit years".
Proof.
  intros Hsign Hdigits Hne.
  assert (Hgen : ∀ unit, unit ∈ unit_alternatives →
    evaluate host ("now | add " +:+ sign +:+ digits +:+ " " +:+ unit) clock
    = switch_unit host (now clock) (Some (Js.Number (sign +:+ digits))) unit).
  { intros unit Hunit.
    destruct (unit_alternative_shape _ Hunit) as (Hubar & Hune & _ & _ & Hufix).
    assert (Hbar : every not_bar (" add " +:+ sign +:+ digits +:+ " " +:+ unit) = true).
    { rewrite !every_app, (every_impl _ _ _ digit_not_bar Hdigits), Hubar.
      by destruct (sign_cases _ Hsign) as [->|[->| ->]]. }
    rewrite (evaluate_one_operation _ _ _ "now " (" add " +:+ sign +:+ digits +:+ " " +:+ unit)).
    2: { change ("now | add " +:+ ?x) with ("now " +:+ String "|" (" add " +:+ x)).
         by rewrite split_app_bar, (split_no_bar _ Hbar). }
    assert (Htrim : trim (" add " +:+ sign +:+ digits +:+ " " +:+ unit)
                    = "add" +:+ " " +:+ sign +:+ EmptyString +:+ digits +:+ " " +:+ unit).
    { unfold trim. change (trimStart (" add " +:+ ?x)) with ("add " +:+ x).
      by apply (fixed_app "add "), fixed_app, fixed_app, (fixed_app " "). }
    rewrite Htrim. by apply apply_operation_add. }
  split.
  - change " months" with (" " +:+ "months"). rewrite (Hgen "months"); [done|]. unfold unit_alternatives. rewrite !elem_of_cons. tauto.
  - change " years" with (" " +:+ "years"). rewrite (Hgen "years"); [done|]. unfold unit_alternatives. rewrite !elem_of_cons. tauto.
Qed.

Lemma evaluate_months_years_unknown_unit_witness :
  evaluate (utc_host (mkDate (Some 0))) "now | add 3 months" {| now := mkDate (Some 0) |}
  = Throw "Unknown unit months"
  ∧ evaluate (utc_host (mkDate (Some 0))) "now | add 3 years" {| now := mkDate (Some 0) |}
    = Throw "Unknown unit years".
Proof.
  apply (evaluate_months_years_unknown_unit _ _ EmptyString "3");
    [rewrite !elem_of_cons; tauto|reflexivity|discriminate].
Defined.
End Claims.

(** * Properties of the processor *)

(** ** The database and its transactions *)
Section Store.
Context {D : Type} `{!Codec D}.
Import QueryDocumentSnapshot.

Implicit Types (db : Firestore D) (w : World D) (jobDocument : QueryDocumentSnapshot D).

Lemma update_eq c f db : update c f db c = f (db c).
Proof. unfold update. by rewrite decide_True. Qed.

Lemma update_ne c c' f db : c ≠ c' → update c f db c' = db c'.
Proof. intros Hne. unfold update. by rewrite decide_False. Qed.

Lemma set_firestore_same w : set_firestore (firestore w) w = w.
Proof. by destruct w. Qed.

(** *** The transaction of [markJobAsRunning] *)
Lemma commit_claim jobDocument db :
  commit (claim_writes jobDocument) db
  = match db Queued !! id jobDocument, db Running !! id jobDocument with
    | Some _, None =>
        inr (update Running (insert (id jobDocument) (data jobDocument))
               (update Queued (delete (id jobDocument)) db))
    | Some _, Some _ => inl ALREADY_EXISTS
    | None, _ => inl NOT_FOUND
    end.
Proof.
  unfold claim_writes, ref. simpl.
  destruct (db Queued !! id jobDocument); [|done].
  rewrite update_ne by done. by destruct (db Running !! id jobDocument).
Qed.

Lemma markJobAsRunning_attempt jobDocument w fault w1 :
  next_attempt w = (Some fault, w1) →
  markJobAsRunning jobDocument w
  = match attempt (claim_writes jobDocument) fault (firestore w1) with
    | (inr _, db) => Some (Right tt, set_firestore db w1)
    | (inl e, db) =>
        Some (Left (if isFirebaseError e then alreadyTaken else e), set_firestore db w1)
    end.
Proof.
  intros Hnext. unfold markJobAsRunning, TE.tryCatch, Promise_catch, TE.orElseW, runTransaction.
  rewrite Hnext. by destruct (attempt _ _ _) as [[e|[]] db].
Qed.

Lemma markJobAsRunning_pending jobDocument w w1 :
  next_attempt w = (None, w1) → markJobAsRunning jobDocument w = Some (Pending, w1).
Proof.
  intros Hnext. unfold markJobAsRunning, TE.tryCatch, Promise_catch, TE.orElseW, runTransaction.
  by rewrite Hnext.
Qed.

Lemma exclusive_claim jobDocument db db' :
  exclusive db → commit (claim_writes jobDocument) db = inr db' → exclusive db'.
Proof.
  intros Hex. rewrite commit_claim.
  destruct (db Queued !! id jobDocument) as [queuedDoc|] eqn:Hq; [|done].
  destruct (db Running !! id jobDocument) eqn:Hr; [done|]. intros [= <-].
  set (db' := update Running (insert (id jobDocument) (data jobDocument))
                (update Queued (delete (id jobDocument)) db)).
  assert (Hother : ∀ c i, i ≠ id jobDocument → db' c !! i = db c !! i).
  { intros c i Hi. subst db'. destruct c.
    - by rewrite update_ne, update_eq, lookup_delete_ne.
    - by rewrite update_eq, update_ne, lookup_insert_ne.
    - by rewrite !update_ne. }
  assert (Hsame : ∀ c, is_Some (db' c !! id jobDocument) → c = Running).
  { intros c. subst db'. destruct c; [|done|].
    - rewrite update_ne, update_eq, lookup_delete_eq by done. by intros [? [=]].
    - rewrite !update_ne by done. intros Hc.
      assert (Complete = Queued) by (by apply (Hex _ _ (id jobDocument))). done. }
  intros c1 c2 i H1 H2. destruct (decide (i = id jobDocument)) as [->|Hi].
  - by rewrite (Hsame _ H1), (Hsame _ H2).
  - rewrite Hother in H1, H2 by done. by apply (Hex _ _ i).
Qed.

Lemma exclusive_completion jobDefinition execution db db' :
  exclusive db → commit (completion_writes jobDefinition execution) db = inr db' →
  exclusive db'.
Proof.
  intros Hex. unfold completion_writes. simpl.
  set (i := JobDefinition.id jobDefinition). set (record := CompletionDocument _).
  destruct (db Complete !! i) eqn:Hc; [done|]. rewrite update_ne by done.
  destruct (db Running !! i) as [runningDoc|] eqn:Hr; [|done]. intros [= <-].
  set (db' := update Running (delete i) (update Complete (insert i record) db)).
  assert (Hother : ∀ c j, j ≠ i → db' c !! j = db c !! j).
  { intros c j Hj. subst db'. destruct c.
    - by rewrite !update_ne.
    - by rewrite update_eq, update_ne, lookup_delete_ne.
    - by rewrite update_ne, update_eq, lookup_insert_ne. }
  assert (Hsame : ∀ c, is_Some (db' c !! i) → c = Complete).
  { intros c. subst db'. destruct c; [| |done].
    - rewrite !update_ne by done. intros Hq.
      assert (Queued = Running) by (by apply (Hex _ _ i)). done.
    - rewrite update_eq, lookup_delete_eq. by intros [? [=]]. }
  intros c1 c2 j H1 H2. destruct (decide (j = i)) as [->|Hj].
  - by rewrite (Hsame _ H1), (Hsame _ H2).
  - rewrite Hother in H1, H2 by done. by apply (Hex _ _ j).
Qed.

End Store.

Section Tasks.
Context {D : Type} `{!Codec D}.
Import QueryDocumentSnapshot.

Implicit Types (db : Firestore D) (w : World D) (jobDocument : QueryDocumentSnapshot D).
Implicit Types (jobDefinition : JobDefinition) (execution : Execution.t).
Implicit Types (docs : list (QueryDocumentSnapshot D)).


(** C10.  Inside [markJobAsRunning], what the transaction is rejected
    with is replaced by the already-taken error exactly when it carries
    a [code], whatever the code says; anything else is passed on as it
    is.  A failed precondition carries a code too. *)
Theorem markJobAsRunning_classifies_by_code jobDocument w fault w1 e db :
  next_attempt w = (Some fault, w1) →
  attempt (claim_writes jobDocument) fault (firestore w1) = (inl e, db) →
  markJobAsRunning jobDocument w
  = Some (Left match e with
               | ErrorObject (Some _) _ => alreadyTaken
               | _ => e
               end, w1)
  ∧ (fault = None → markJobAsRunning jobDocument w = Some (Left alreadyTaken, w1)).
Proof.
  intros Hnext Hattempt. rewrite (markJobAsRunning_attempt _ _ _ _ Hnext), Hattempt.
  assert (db = firestore w1) as ->.
  { unfold attempt in Hattempt. destruct fault; [congruence|].
    destruct (commit _ _); congruence. }
  rewrite set_firestore_same. split.
  - by destruct e as [|[code|] message| |].
  - intros ->. unfold attempt in Hattempt. rewrite commit_claim in Hattempt.
    destruct (firestore w1 Queued !! id jobDocument),
      (firestore w1 Running !! id jobDocument); by simplify_eq.
Qed.

(** *** The transaction of [markJobAsComplete] *)
Lemma commit_completion jobDefinition execution db db' :
  commit (completion_writes jobDefinition execution) db = inr db' →
  db' Complete !! JobDefinition.id jobDefinition
  = Some (CompletionDocument
            {| jobDefinition := encode jobDefinition;
               status := Axios.status (Execution.axiosResponse execution);
               executionLagMs :=
                 num_sub (getTime (Execution.executionStartDate execution))
                   (getTime (JobDefinition.date (JobDefinition.scheduledAt jobDefinition)));
               durationMs := Execution.durationMs execution |}).
Proof.
  unfold completion_writes. simpl.
  destruct (db Complete !! JobDefinition.id jobDefinition); [done|].
  rewrite update_ne by done.
  destruct (db Running !! JobDefinition.id jobDefinition); [|done].
  intros [= <-]. by rewrite update_ne, update_eq, lookup_insert_eq.
Qed.

Lemma markJobAsComplete_attempt jobDefinition execution w fault w1 :
  next_attempt w = (Some fault, w1) →
  markJobAsComplete jobDefinition execution w
  = match attempt (completion_writes jobDefinition execution) fault (firestore w1) with
    | (inr _, db) => Some (Right tt, set_firestore db w1)
    | (inl e, db) =>
        Some (Left TaskOfUndefined,
              set_console (e :: console w1) (set_firestore db w1))
    end.
Proof.
  intros Hnext. unfold markJobAsComplete, TE.chainW, TE.right, TE.tryCatch, runTransaction.
  rewrite Hnext. by destruct (attempt _ _ _) as [[e|[]] db].
Qed.

Lemma markJobAsComplete_pending jobDefinition execution w w1 :
  next_attempt w = (None, w1) →
  markJobAsComplete jobDefinition execution w = Some (Pending, w1).
Proof.
  intros Hnext. unfold markJobAsComplete, TE.chainW, TE.right, TE.tryCatch, runTransaction.
  by rewrite Hnext.
Qed.

Lemma processJob_response jobDefinition w :
  processJob jobDefinition w
  = match next_response w with
    | (None, w1) => Some (Pending, w1)
    | (Some (inl e), w1) => Some (Left e, w1)
    | (Some (inr response), w1) =>
        markJobAsComplete jobDefinition
          {| Execution.axiosResponse := response;
             Execution.executionStartDate := now (clock w);
             Execution.durationMs :=
               num_sub (getTime (now (clock w1))) (getTime (now (clock w))) |} w1
    end.
Proof.
  unfold processJob, TE.chainW, TE.right, TE.tryCatch, axios_post.
  by destruct (next_response w) as [[[e|response]|] w1].
Qed.

Lemma axios_post_response callbackId w response w1 :
  axios_post callbackId w = Some (Right response, w1) →
  next_response w = (Some (inr response), w1).
Proof.
  unfold axios_post. destruct (next_response w) as [[[e|response']|] w1']; congruence.
Qed.

(** C9.  When the call of the callback succeeds and the completion is
    written, the record in [complete] holds the status of the response,
    the clock reading taken before the call minus the scheduled
    instant, and the clock reading after the call minus the one before
    it. *)
Theorem processJob_completion_record jobDefinition w response w1 w2 :
  axios_post (JobDefinition.id jobDefinition) w = Some (Right response, w1) →
  processJob jobDefinition w = Some (Right tt, w2) →
  firestore w2 Complete !! JobDefinition.id jobDefinition
  = Some (CompletionDocument
            {| jobDefinition := encode jobDefinition;
               status := Axios.status response;
               executionLagMs :=
                 num_sub (getTime (now (clock w)))
                   (getTime (JobDefinition.date (JobDefinition.scheduledAt jobDefinition)));
               durationMs :=
                 num_sub (getTime (now (clock w1))) (getTime (now (clock w))) |}).
Proof.
  intros Hpost%axios_post_response. rewrite processJob_response, Hpost.
  destruct (next_attempt w1) as [[fault|] w3] eqn:Hnext.
  - rewrite (markJobAsComplete_attempt _ _ _ _ _ Hnext). unfold attempt.
    destruct fault as [e|]; [done|].
    destruct (commit _ _) as [e|db'] eqn:Hcommit; [done|].
    intros [= <-]. by apply (commit_completion _ _ _ _ Hcommit).
  - by rewrite (markJobAsComplete_pending _ _ _ _ Hnext).
Qed.

(** C4: what the code does where the claim has the loop go on.  A
    failure to write the completion is logged, and [markJobAsComplete]
    ends with a [Left] (holding what [onRejected] returned, the task
    [TE.of(undefined)]); a [Left] of [processJob] is the end of
    [takeNextJob], which does not call itself again. *)
Theorem takeNextJob_ends_when_completion_fails :
  (∀ jobDefinition execution w fault w1 e db,
     next_attempt w = (Some fault, w1) →
     attempt (completion_writes jobDefinition execution) fault (firestore w1) = (inl e, db) →
     markJobAsComplete jobDefinition execution w
     = Some (Left TaskOfUndefined, set_console (e :: console w1) w1))
  ∧ (∀ fuel w jobDefinition w1 e w2,
       waitForNextJob fuel w = Some (Right jobDefinition, w1) →
       processJob jobDefinition w1 = Some (Left e, w2) →
       takeNextJob (S fuel) w = Some (Left e, w2)).
Proof.
  split.
  - intros jobDefinition execution w fault w1 e db Hnext Hattempt.
    rewrite (markJobAsComplete_attempt _ _ _ _ _ Hnext), Hattempt.
    assert (db = firestore w1) as ->.
    { unfold attempt in Hattempt. destruct fault; [congruence|].
      destruct (commit _ _); congruence. }
    by rewrite set_firestore_same.
  - intros fuel w jobDefinition w1 e w2 Hwait Hprocess. simpl.
    unfold TE.chainW, TE.chainFirstW, TE.chainW. by rewrite Hwait, Hprocess.
Qed.

(** *** One candidate *)
Lemma takeFirstValidAvailableJob_not_decoded fuel docs index jobDocument w :
  docs !! index = Some jobDocument →
  decode (data jobDocument) = None →
  takeFirstValidAvailableJob (S fuel) docs index w
  = takeFirstValidAvailableJob fuel docs (index + 1) w.
Proof.
  intros Hdoc Hdecode. simpl. rewrite Hdoc, Hdecode.
  by unfold TE.orElseW, TE.chainFirstW, TE.chainW, TE.fromEither, TE.left.
Qed.

Lemma takeFirstValidAvailableJob_not_claimed fuel docs index jobDocument w jobDefinition e w' :
  docs !! index = Some jobDocument →
  decode (data jobDocument) = Some jobDefinition →
  markJobAsRunning jobDocument w = Some (Left e, w') →
  takeFirstValidAvailableJob (S fuel) docs index w
  = takeFirstValidAvailableJob fuel docs (index + 1) w'.
Proof.
  intros Hdoc Hdecode Hclaim. simpl. rewrite Hdoc, Hdecode.
  unfold TE.orElseW, TE.chainFirstW, TE.chainW, TE.fromEither, TE.right.
  by rewrite Hclaim.
Qed.

Lemma takeFirstValidAvailableJob_claimed fuel docs index jobDocument w jobDefinition w' :
  docs !! index = Some jobDocument →
  decode (data jobDocument) = Some jobDefinition →
  markJobAsRunning jobDocument w = Some (Right tt, w') →
  takeFirstValidAvailableJob (S fuel) docs index w = Some (Right jobDefinition, w').
Proof.
  intros Hdoc Hdecode Hclaim. simpl. rewrite Hdoc, Hdecode.
  unfold TE.orElseW, TE.chainFirstW, TE.chainW, TE.fromEither, TE.right.
  by rewrite Hclaim.
Qed.


(** C2, as amended.  Whatever makes the claim of the candidate at
    [index] fail (a document that does not decode, the already-taken
    error, any other error), the processor goes on with the candidate
    at [index + 1], in the world the failure left; no error of the
    claim step reaches the caller.  A claim that succeeds ends the
    search with the job. *)
Theorem takeFirstValidAvailableJob_advances fuel docs index jobDocument w :
  docs !! index = Some jobDocument →
  (decode (data jobDocument) = None →
   takeFirstValidAvailableJob (S fuel) docs index w
   = takeFirstValidAvailableJob fuel docs (index + 1) w)
  ∧ (∀ jobDefinition e w',
       decode (data jobDocument) = Some jobDefinition →
       markJobAsRunning jobDocument w = Some (Left e, w') →
       takeFirstValidAvailableJob (S fuel) docs index w
       = takeFirstValidAvailableJob fuel docs (index + 1) w')
  ∧ (∀ jobDefinition w',
       decode (data jobDocument) = Some jobDefinition →
       markJobAsRunning jobDocument w = Some (Right tt, w') →
       takeFirstValidAvailableJob (S fuel) docs index w = Some (Right jobDefinition, w')).
Proof.
  intros Hdoc. split; [|split].
  - by apply takeFirstValidAvailableJob_not_decoded.
  - intros jobDefinition e w'. by apply takeFirstValidAvailableJob_not_claimed.
  - intros jobDefinition w'. by apply takeFirstValidAvailableJob_claimed.
Qed.
End Tasks.

(** ** Batches *)
Section Shuffle.
Context {A : Type}.
Implicit Types (l array : list A).

Lemma insert_lookup_Permutation l j x y :
  l !! j = Some y → y :: <[j := x]> l ≡ₚ x :: l.
Proof.
  revert j. induction l as [|a l IH]; intros [|j]; simpl; try done.
  - intros [= ->]. apply perm_swap.
  - intros Hj. rewrite (perm_swap a y), (IH _ Hj). apply perm_swap.
Qed.

Lemma swap_Permutation array index rand : Lodash.swap array index rand ≡ₚ array.
Proof.
  unfold Lodash.swap.
  destruct (array !! rand) as [value|] eqn:Hrand; [|done].
  destruct (array !! index) as [x|] eqn:Hindex; [|done].
  revert index rand Hrand Hindex.
  induction array as [|a l IH]; intros [|i] [|j]; simpl; try done.
  - by intros [= ->] [= ->].
  - intros Hj [= ->]. by apply insert_lookup_Permutation.
  - intros [= ->] Hi. by apply insert_lookup_Permutation.
  - intros Hj Hi. by rewrite (IH _ _ Hj Hi).
Qed.

Lemma shuffleSelf_Permutation steps index array random :
  (Lodash.shuffleSelf steps index array random).1 ≡ₚ array.
Proof.
  revert index array random. induction steps as [|steps IH]; intros; simpl; [done|].
  by rewrite IH, swap_Permutation.
Qed.

Lemma shuffle_Permutation l random : (Lodash.shuffle l random).1 ≡ₚ l.
Proof. apply shuffleSelf_Permutation. Qed.
End Shuffle.

Section Query.
Context {D : Type} `{!Codec D}.
Import QueryDocumentSnapshot.

Implicit Types (db : Firestore D) (w : World D).

#[local] Instance entry_le_total : Total (entry_le (D:=D)).
Proof.
  intros a b. unfold entry_le.
  destruct (Z.lt_trichotomy (key_of a) (key_of b)) as [?|[Heq|?]]; [by auto| |by auto].
  rewrite Heq. destruct (total String.le a.1 b.1); auto.
Qed.

#[local] Instance entry_le_trans : Transitive (entry_le (D:=D)).
Proof.
  intros a b c [Hab|[Hab Hab']] [Hbc|[Hbc Hbc']]; unfold entry_le; [left; lia..|].
  right. split; [lia|]. by trans b.1.
Qed.

Lemma queuedQuery_length db : (length (queuedQuery db) ≤ 5)%nat.
Proof. unfold queuedQuery. rewrite length_fmap, length_take. lia. Qed.



(** *** Waiting *)
Lemma await_snapshot_resolved promise listener evs w snapshot w' :
  await_snapshot promise listener evs w = (Resolved snapshot, w') →
  snapshot = queuedQuery (firestore w') ∧ snapshot ≠ [].
Proof.
  revert w. induction evs as [|ev evs IH]; intros w; simpl; [done|].
  destruct ev as [a| |e|fault|r]; try apply IH.
  - destruct (decide (promise ∈ pending (act a w))); [apply IH|done].
  - destruct (decide (listener ∈ listeners w)); [|apply IH].
    destruct (length (queuedQuery (firestore w)) =? 0)%nat eqn:Hlen; [apply IH|].
    intros [= <- <-]. split.
    + by destruct (unsubscribe (this w)).
    + intros Hnil. by rewrite Hnil in Hlen.
  - destruct (decide (listener ∈ listeners w)); [done|apply IH].
Qed.

Lemma listen_resolved w snapshot w' :
  listen w = Some (Right snapshot, w') →
  snapshot = queuedQuery (firestore w') ∧ snapshot ≠ [].
Proof.
  unfold listen. destruct (await_snapshot _ _ _ _) as [[snapshot'|e|] w''] eqn:Hawait; try done.
  intros [= <- <-]. by apply (await_snapshot_resolved _ _ _ _ _ _ Hawait).
Qed.

End Query.

(** ** The closed state *)
Section Closed.
Context {D : Type} `{!Codec D}.
Import QueryDocumentSnapshot.

Implicit Types (db : Firestore D) (w : World D) (jobDocument : QueryDocumentSnapshot D).

Lemma close_closed w : state (this (close w)) = closed.
Proof. unfold close. simpl. by destruct (unsubscribe (this w)), (reject (this w)). Qed.

Lemma not_elem_of_remove (n : nat) (X : gset nat) : n ∉ X ∖ {[n]}.
Proof. rewrite elem_of_difference, elem_of_singleton. by intros [_ []]. Qed.

Lemma close_unsubscribes w l : unsubscribe (this w) = Some l → l ∉ listeners (close w).
Proof.
  intros Hl. unfold close. simpl. rewrite Hl. simpl.
  destruct (reject (this w)); simpl; apply not_elem_of_remove.
Qed.

Lemma close_rejects w p : reject (this w) = Some p → p ∉ pending (close w).
Proof.
  intros Hp. unfold close. simpl.
  destruct (unsubscribe (this w)); simpl; rewrite Hp; simpl; apply not_elem_of_remove.
Qed.

Lemma act_keeps_closed a w : state (this w) = closed → state (this (act a w)) = closed.
Proof. intros Hw. destruct a; simpl; [apply close_closed|done..]. Qed.

Lemma await_keeps_closed {X} (pick : Event D → option X) evs w x w' :
  state (this w) = closed → await pick evs w = (x, w') → state (this w') = closed.
Proof.
  revert w. induction evs as [|ev evs IH]; intros w Hw; simpl.
  - by intros [= <- <-].
  - destruct ev as [a| |e|fault|r]; try (destruct (pick _); [by intros [= <- <-]|]);
      eauto using act_keeps_closed.
Qed.

Lemma await_snapshot_keeps_closed promise listener evs w r w' :
  state (this w) = closed → await_snapshot promise listener evs w = (r, w') →
  state (this w') = closed.
Proof.
  revert w. induction evs as [|ev evs IH]; intros w Hw; simpl.
  - by intros [= <- <-].
  - destruct ev as [a| |e|fault|r0]; eauto.
    + destruct (decide _); [by eauto using act_keeps_closed|].
      intros [= <- <-]. by apply act_keeps_closed.
    + destruct (decide _); [|by eauto].
      destruct (_ =? _)%nat; [by eauto|]. intros [= <- <-].
      by destruct (unsubscribe (this w)).
    + destruct (decide _); [|by eauto]. by intros [= <- <-].
Qed.








Lemma keeps_closed_axios_post callbackId : keeps_closed D (axios_post callbackId).
Proof.
  intros w o w' Hw. unfold axios_post, next_response.
  destruct (await _ _ _) as [[[e|response]|] w1] eqn:Hawait; intros [= <- <-];
    by apply (await_keeps_closed _ _ _ _ _ Hw Hawait).
Qed.




Lemma keeps_closed_listen : keeps_closed D listen.
Proof.
  intros w o w' Hw. unfold listen.
  destruct (await_snapshot _ _ _ _) as [r w1] eqn:Hawait.
  assert (state (this w1) = closed)
    by (eapply await_snapshot_keeps_closed; [|exact Hawait]; done).
  by destruct r; intros [= <- <-].
Qed.



Lemma waitForNextJob_closed fuel w :
  state (this w) = closed →
  waitForNextJob (S fuel) w = Some (Left (newError "Processor is not running"), w).
Proof. intros Hw. simpl. by rewrite decide_True. Qed.

Lemma takeNextJob_closed fuel w :
  state (this w) = closed →
  takeNextJob (S (S fuel)) w = Some (Left (newError "Processor is not running"), w).
Proof.
  intros Hw. change (takeNextJob (S (S fuel))) with
    (TE.chainW (λ _, takeNextJob (S fuel))
       (TE.chainFirstW (λ jobDefinition, processJob jobDefinition) (waitForNextJob (S fuel)))).
  unfold TE.chainW, TE.chainFirstW, TE.chainW. by rewrite waitForNextJob_closed.
Qed.

End Closed.

Section ClosedClaim.
Context {D : Type} `{!Codec D}.
Import QueryDocumentSnapshot.

End ClosedClaim.

Section Examples.
Import QueryDocumentSnapshot Sample.



(** C2, the claim as stated fails: the transaction of the first
    candidate is rejected with an error that has no [code], which
    [markJobAsRunning] passes on as it is; the processor takes the
    next candidate all the same, and the error reaches nobody. *)
Lemma takeFirstValidAvailableJob_absorbs_unexpected_error :
  fst <$> markJobAsRunning snapshot_a
            (world two_jobs 0 [] [TxAttempt (Some (newError "socket hang up"))])
  = Some (Left (newError "socket hang up"))
  ∧ fst <$> takeFirstValidAvailableJob 3 [snapshot_a; snapshot_b] 0
              (world two_jobs 0 []
                 [TxAttempt (Some (newError "socket hang up")); TxAttempt None])
    = Some (Right (job "b" 5)).
Proof. split; vm_compute; reflexivity. Qed.
End Examples.

(** ** The theorems at work *)
Section Witnesses.
Import QueryDocumentSnapshot Sample.



Lemma markJobAsRunning_classifies_by_code_witness :
  markJobAsRunning snapshot_a (world two_jobs 0 [] [TxAttempt (Some unavailable)])
  = Some (Left alreadyTaken, world two_jobs 0 [] [])
  ∧ markJobAsRunning snapshot_a
      (world two_jobs 0 [] [TxAttempt (Some (newError "socket hang up"))])
    = Some (Left (newError "socket hang up"), world two_jobs 0 [] []).
Proof.
  split.
  - exact (proj1 (markJobAsRunning_classifies_by_code snapshot_a
             (world two_jobs 0 [] [TxAttempt (Some unavailable)]) (Some unavailable)
             (world two_jobs 0 [] []) unavailable two_jobs eq_refl eq_refl)).
  - exact (proj1 (markJobAsRunning_classifies_by_code snapshot_a
             (world two_jobs 0 [] [TxAttempt (Some (newError "socket hang up"))])
             (Some (newError "socket hang up"))
             (world two_jobs 0 [] []) (newError "socket hang up") two_jobs
             eq_refl eq_refl)).
Defined.

Lemma takeFirstValidAvailableJob_advances_witness :
  takeFirstValidAvailableJob 3 [snapshot_a; snapshot_b] 0
    (world two_jobs 0 [] [TxAttempt (Some unavailable); TxAttempt None])
  = takeFirstValidAvailableJob 2 [snapshot_a; snapshot_b] 1
      (world two_jobs 0 [] [TxAttempt None]).
Proof.
  apply (proj1 (proj2 (takeFirstValidAvailableJob_advances 2 [snapshot_a; snapshot_b]
                         0%nat snapshot_a
                         (world two_jobs 0 [] [TxAttempt (Some unavailable); TxAttempt None])
                         eq_refl))
           (job "a" 10) alreadyTaken (world two_jobs 0 [] [TxAttempt None]));
    reflexivity.
Defined.

Lemma processJob_completion_record_witness :
  ∃ w2, processJob (job "a" 10) execution_start = Some (Right tt, w2)
        ∧ firestore w2 Complete !! "a"
          = Some (CompletionDocument
                    {| jobDefinition := Encoded (job "a" 10);
                       status := 200;
                       executionLagMs := Some 90;
                       durationMs := Some 42 |}).
Proof.
  destruct (processJob (job "a" 10) execution_start) as [[[[]|e|] w2]|] eqn:Hrun;
    try (vm_compute in Hrun; discriminate).
  exists w2. split; [reflexivity|].
  exact (processJob_completion_record (job "a" 10) execution_start
           {| Axios.status := 200 |} execution_answered w2 eq_refl Hrun).
Defined.

(** C4, the failing input run: job [b] is claimed and its callback
    answers 200, the completion cannot be written because [complete]
    already holds [b]; the loop ends there with a [Left], the error is
    logged, and the snapshot still to come is never looked at. *)
Example takeNextJob_completion_failure :
  (λ '(o, w), (o, console w, events w))
    <$> run 10 (world
                  (store [("b", doc "b" 5)] [] [("b", doc "b" 5)])
                  100 []
                  [Snapshot; TxAttempt None; Response (inr {| Axios.status := 200 |});
                   TxAttempt None; Snapshot])
  = Some (Left TaskOfUndefined, [ALREADY_EXISTS], [Snapshot]).
Proof. vm_compute. reflexivity. Qed.
End Witnesses.

(** * More on [evaluate] *)

Section Operations.
Import Js Grammar DateFunctions Parts Units.

Lemma evaluate_operation host clock ts sp1 sp2 sign sp3 digits sp4 unit sp5 :
  every not_bar ts = true → spaces sp1 → spaces sp2 → sp2 ≠ EmptyString →
  sign ∈ [EmptyString; "+"; "-"] → spaces sp3 →
  every is_digit digits = true → digits ≠ EmptyString → spaces sp4 →
  unit ∈ unit_alternatives → spaces sp5 →
  evaluate host (ts +:+ "|" +:+ sp1 +:+ "add" +:+ sp2 +:+ sign +:+ sp3 +:+ digits +:+ sp4
                   +:+ unit +:+ sp5) clock
  = switch_unit host (start_date host (trim ts) clock) (Some (Number (sign +:+ digits))) unit.
Proof.
  intros Hts Hsp1 Hsp2 Hne2 Hsign Hsp3 Hdigits Hne Hsp4 Hunit Hsp5.
  destruct (unit_alternative_shape _ Hunit) as (Hubar & Hune & _ & _ & Hufix).
  set (core := "add" +:+ sp2 +:+ sign +:+ sp3 +:+ digits +:+ sp4 +:+ unit).
  assert (Hs : ts +:+ "|" +:+ sp1 +:+ "add" +:+ sp2 +:+ sign +:+ sp3 +:+ digits +:+ sp4
                  +:+ unit +:+ sp5
               = ts +:+ String "|" (sp1 +:+ core +:+ sp5)).
  { subst core. change (String "|" ?x) with ("|" +:+ x). by rewrite !append_assoc. }
  rewrite Hs.
  assert (Hbar : every not_bar (sp1 +:+ core +:+ sp5) = true).
  { subst core. rewrite !every_app.
    rewrite (every_impl _ _ _ space_not_bar Hsp1), (every_impl _ _ _ space_not_bar Hsp2),
      (every_impl _ _ _ space_not_bar Hsp3), (every_impl _ _ _ space_not_bar Hsp4),
      (every_impl _ _ _ space_not_bar Hsp5), (every_impl _ _ _ digit_not_bar Hdigits), Hubar.
    by destruct (sign_cases _ Hsign) as [->|[->| ->]]. }
  rewrite (evaluate_one_operation _ _ _ ts (sp1 +:+ core +:+ sp5)).
  2: { by rewrite (split_app_bar _ _ Hts), (split_no_bar _ Hbar). }
  assert (Htrim : trim (sp1 +:+ core +:+ sp5) = core).
  { unfold trim. rewrite (trimStart_spaces _ _ Hsp1).
    rewrite (trimStart_stops (core +:+ sp5)); [|done].
    rewrite (trimEnd_spaces _ _ Hsp5). subst core.
    by apply fixed_app, fixed_app, fixed_app, fixed_app, fixed_app, fixed_app. }
  rewrite Htrim. subst core. by apply apply_operation_add.
Qed.

Lemma milliseconds_unit unit ms :
  milliseconds unit = Some ms →
  unit ∈ unit_alternatives
  ∧ ∀ host date amount,
      switch_unit host date amount unit
      = Return (Date_of_value (num_add (getTime date) (num_mul amount (Some ms)))).
Proof.
  unfold milliseconds.
  destruct (String.eqb unit "s") eqn:H1.
  { apply String.eqb_eq in H1 as ->. intros [= <-]. split; [|done]. apply list_elem_of_here. }
  destruct (String.eqb unit "m") eqn:H2.
  { apply String.eqb_eq in H2 as ->. intros [= <-]. split; [|done].
    unfold unit_alternatives. rewrite !elem_of_cons. tauto. }
  destruct (String.eqb unit "h") eqn:H3.
  { apply String.eqb_eq in H3 as ->. intros [= <-]. split; [|done].
    unfold unit_alternatives. rewrite !elem_of_cons. tauto. }
  destruct (String.eqb unit "d") eqn:H4; [|done].
  apply String.eqb_eq in H4 as ->. intros [= <-]. split; [|done].
  unfold unit_alternatives. rewrite !elem_of_cons. tauto.
Qed.

Lemma Number_digits sign digits :
  sign ∈ [EmptyString; "+"; "-"] → every is_digit digits = true → digits ≠ EmptyString →
  Number (sign +:+ digits)
  = if String.eqb sign "-" then - digits_value 0 digits else digits_value 0 digits.
Proof.
  intros Hsign Hdigits Hne. destruct (sign_cases _ Hsign) as [->|[->| ->]]; try done.
  destruct digits as [|d ds]; [done|]. simpl in Hdigits.
  apply andb_true_iff in Hdigits as [Hd _]. apply digit_not_sign in Hd as [Hp Hm].
  change (EmptyString +:+ ?x) with x. unfold Number.
  destruct d as [[] [] [] [] [] [] [] []]; try done.
Qed.


Lemma evaluate_now_adds host clock sign digits unit ms :
  sign ∈ [EmptyString; "+"; "-"] →
  every is_digit digits = true → digits ≠ EmptyString → milliseconds unit = Some ms →
  evaluate host ("now | add " +:+ sign +:+ digits +:+ unit) clock
  = Return (Date_of_value
              (num_add (getTime (now clock))
                 (Some ((if String.eqb sign "-" then - digits_value 0 digits
                         else digits_value 0 digits) * ms)))).
Proof.
  intros Hsign Hdigits Hne Hunit.
  destruct (milliseconds_unit _ _ Hunit) as [Halt Hswitch].
  pose proof (evaluate_operation host clock "now " " " " " sign EmptyString digits
                EmptyString unit EmptyString) as Heval.
  rewrite append_nil_r in Heval. etrans; [by apply Heval|].
  rewrite Hswitch. by rewrite Number_digits.
Qed.

(** X2.  Adding an amount of [s], [m], [h] or [d] and then the opposite
    amount gives the start again, as long as both dates are in the range
    of [Date]. *)
Theorem evaluate_add_then_subtract host host' clock digits unit ms T :
  every is_digit digits = true → digits ≠ EmptyString → milliseconds unit = Some ms →
  getTime (now clock) = Some T → Z.abs T ≤ maxTime →
  Z.abs (T + digits_value 0 digits * ms) ≤ maxTime →
  ∃ d, evaluate host ("now | add " +:+ digits +:+ unit) clock = Return d
       ∧ evaluate host' ("now | add -" +:+ digits +:+ unit) {| now := d |} = Return (now clock).
Proof.
  intros Hdigits Hne Hunit Hnow HT Hrange. eexists. split.
  - apply (evaluate_now_adds host clock EmptyString digits unit ms); try done.
    apply list_elem_of_here.
  - change ("now | add -" +:+ ?x) with ("now | add " +:+ "-" +:+ x).
    rewrite (evaluate_now_adds host' _ "-" digits unit ms); try done.
    2: { rewrite !elem_of_cons. tauto. }
    rewrite Hnow. simpl. unfold Date_of_value, TimeClip. simpl.
    rewrite (proj2 (Z.leb_le _ _) Hrange). simpl.
    replace (T + digits_value 0 digits * ms + - digits_value 0 digits * ms) with T by lia.
    rewrite (proj2 (Z.leb_le _ _) HT). destruct clock as [[t]]. simpl in *. by subst.
Qed.


End Operations.

Section FromQueryLanguage.
Context {D : Type}.
Import Js Grammar DateFunctions Parts.

End FromQueryLanguage.

(** ** Months and years *)
Section Calendar.
Import DateFns.

Ltac split_ifs :=
  repeat match goal with
         | H : context [if ?b then _ else _] |- _ => destruct b eqn:?
         | |- context [if ?b then _ else _] => destruct b eqn:?
         end;
  rewrite ?Z.ltb_lt, ?Z.ltb_ge, ?Z.leb_le, ?Z.leb_gt in *.

Lemma days_from_civil_day y m d : days_from_civil y m d = days_from_civil y m 1 + d - 1.
Proof. unfold days_from_civil. lia. Qed.

Lemma daysInMonth_next y m :
  days_from_civil (y + m / 12) (m mod 12 + 1) 1 = days_from_civil y m 1 + daysInMonth y m.
Proof. unfold daysInMonth. lia. Qed.

Lemma daysInMonth_range y m : 1 ≤ m ≤ 12 → 28 ≤ daysInMonth y m ≤ 31.
Proof.
  intros Hm. unfold daysInMonth, days_from_civil. cbv zeta.
  split_ifs; Z.div_mod_to_equations; lia.
Qed.

Lemma year_of_era (yoe doy : Z) :
  0 ≤ yoe < 400 → 0 ≤ doy ≤ 365 →
  (doy = 365 → yoe mod 4 = 3 ∧ (yoe mod 100 ≠ 99 ∨ yoe = 399)) →
  let doe := yoe * 365 + yoe / 4 - yoe / 100 + doy in
  0 ≤ doe < 146097
  ∧ (doe - doe / 1460 + doe / 36524 - doe / 146096) / 365 = yoe.
Proof. intros Hyoe Hdoy Hleap. cbv zeta. Z.div_mod_to_equations. lia. Qed.

Lemma month_of_year (mp d : Z) :
  0 ≤ mp ≤ 11 → 1 ≤ d ≤ (153 * (mp + 1) + 2) / 5 - (153 * mp + 2) / 5 →
  (5 * ((153 * mp + 2) / 5 + d - 1) + 2) / 153 = mp.
Proof. intros Hmp Hd. Z.div_mod_to_equations. lia. Qed.

Lemma days_in_march_year y m d :
  1 ≤ m ≤ 12 → 1 ≤ d ≤ daysInMonth y m →
  let yoe := March.year y m - March.year y m / 400 * 400 in
  let mp := March.month m in
  let doy := (153 * mp + 2) / 5 + d - 1 in
  0 ≤ yoe < 400 ∧ 0 ≤ mp ≤ 11
  ∧ d ≤ (153 * (mp + 1) + 2) / 5 - (153 * mp + 2) / 5
  ∧ 0 ≤ doy ≤ 365
  ∧ (doy = 365 → yoe mod 4 = 3 ∧ (yoe mod 100 ≠ 99 ∨ yoe = 399)).
Proof.
  intros Hm Hd. unfold daysInMonth, days_from_civil, March.year, March.month in *.
  cbv zeta in *. split_ifs; Z.div_mod_to_equations; lia.
Qed.

Lemma civil_from_days_march era yoe mp d :
  0 ≤ yoe < 400 → 0 ≤ mp ≤ 11 →
  d ≤ (153 * (mp + 1) + 2) / 5 - (153 * mp + 2) / 5 → 1 ≤ d →
  let doy := (153 * mp + 2) / 5 + d - 1 in
  0 ≤ doy ≤ 365 →
  (doy = 365 → yoe mod 4 = 3 ∧ (yoe mod 100 ≠ 99 ∨ yoe = 399)) →
  civil_from_days (era * 146097 + (yoe * 365 + yoe / 4 - yoe / 100 + doy) - 719468)
  = (if (if mp <? 10 then mp + 3 else mp - 9) <=? 2 then yoe + era * 400 + 1
     else yoe + era * 400,
     if mp <? 10 then mp + 3 else mp - 9, d).
Proof.
  intros Hyoe Hmp Hd Hd1 doy Hdoy Hleap.
  destruct (year_of_era yoe doy Hyoe Hdoy Hleap) as [Hdoe Hback].
  set (doe := yoe * 365 + yoe / 4 - yoe / 100 + doy) in *.
  unfold civil_from_days. cbv zeta.
  replace (era * 146097 + doe - 719468 + 719468) with (doe + era * 146097) by lia.
  rewrite Z.div_add, (Z.div_small doe 146097), Z.add_0_l by lia.
  replace (doe + era * 146097 - era * 146097) with doe by lia.
  rewrite Hback.
  replace (doe - (365 * yoe + yoe / 4 - yoe / 100)) with doy by (subst doe; lia).
  subst doy. rewrite month_of_year by lia.
  f_equal. lia.
Qed.

(** A date of the calendar is the date of its day number. *)
Lemma civil_from_days_from_civil y m d :
  1 ≤ m ≤ 12 → 1 ≤ d ≤ daysInMonth y m →
  civil_from_days (days_from_civil y m d) = (y, m, d).
Proof.
  intros Hm Hd.
  destruct (days_in_march_year y m d Hm Hd) as (Hyoe & Hmp & Hdim & Hdoy & Hleap).
  change (days_from_civil y m d)
    with (March.year y m / 400 * 146097
          + ((March.year y m - March.year y m / 400 * 400) * 365
             + (March.year y m - March.year y m / 400 * 400) / 4
             - (March.year y m - March.year y m / 400 * 400) / 100
             + ((153 * March.month m + 2) / 5 + d - 1)) - 719468).
  rewrite civil_from_days_march by (done || lia).
  unfold March.year, March.month. split_ifs; f_equal; try f_equal; lia.
Qed.

Lemma civil_from_days_range z :
  1 ≤ (civil_from_days z).1.2 ≤ 12 ∧ 1 ≤ (civil_from_days z).2 ≤ 31.
Proof.
  unfold civil_from_days. cbv zeta. cbn [fst snd].
  destruct (_ <? 10) eqn:Hmp; [apply Z.ltb_lt in Hmp|apply Z.ltb_ge in Hmp];
    Z.div_mod_to_equations; lia.
Qed.

(** *** Times of day *)
Lemma MakeTime_parts t :
  MakeTime (HourFromTime t) (MinFromTime t) (SecFromTime t) (msFromTime t) = TimeWithinDay t.
Proof.
  unfold MakeTime, HourFromTime, MinFromTime, SecFromTime, msFromTime, TimeWithinDay, msPerDay.
  Z.div_mod_to_equations. lia.
Qed.

Lemma TimeWithinDay_range t : 0 ≤ TimeWithinDay t < msPerDay.
Proof. unfold TimeWithinDay, msPerDay. apply Z.mod_pos_bound. lia. Qed.

Lemma MakeDate_parts day t :
  Day (MakeDate day (TimeWithinDay t)) = day
  ∧ HourFromTime (MakeDate day (TimeWithinDay t)) = HourFromTime t
  ∧ MinFromTime (MakeDate day (TimeWithinDay t)) = MinFromTime t
  ∧ SecFromTime (MakeDate day (TimeWithinDay t)) = SecFromTime t
  ∧ msFromTime (MakeDate day (TimeWithinDay t)) = msFromTime t.
Proof.
  unfold Day, MakeDate, TimeWithinDay, HourFromTime, MinFromTime, SecFromTime, msFromTime,
    msPerDay.
  repeat split; Z.div_mod_to_equations; lia.
Qed.

(** The date [MakeDay] makes of a day of the month that the month may
    not have: the day is counted on from the first of the month. *)
Lemma MakeDay_fields yr months d t :
  1 ≤ d ≤ 31 →
  let year := yr + months / 12 in
  let days := daysInMonth year (months mod 12 + 1) in
  let made := MakeDate (MakeDay yr months d) (TimeWithinDay t) in
  (d ≤ days →
   YearFromTime made = year ∧ MonthFromTime made = months mod 12 ∧ DateFromTime made = d)
  ∧ (days < d →
     YearFromTime made = yr + (months + 1) / 12
     ∧ MonthFromTime made = (months + 1) mod 12
     ∧ DateFromTime made = d - days).
Proof.
  intros Hd year days made.
  assert (Hm : 1 ≤ months mod 12 + 1 ≤ 12) by (pose proof (Z.mod_pos_bound months 12); lia).
  assert (Hday : Day made = days_from_civil year (months mod 12 + 1) d).
  { subst made. rewrite (proj1 (MakeDate_parts _ _)). unfold MakeDay.
    by rewrite (days_from_civil_day _ _ d). }
  unfold YearFromTime, MonthFromTime, DateFromTime. rewrite Hday. split.
  - intros Hfits. rewrite civil_from_days_from_civil by lia. cbn [fst snd].
    split; [done|]. split; [lia|done].
  - intros Hover.
    pose proof (daysInMonth_range year (months mod 12 + 1) Hm) as Hdays. fold days in Hdays.
    set (year' := year + (months mod 12 + 1) / 12).
    set (month' := (months mod 12 + 1) mod 12 + 1).
    assert (Hm' : 1 ≤ month' ≤ 12).
    { subst month'. pose proof (Z.mod_pos_bound (months mod 12 + 1) 12). lia. }
    pose proof (daysInMonth_range year' month' Hm') as Hdays'.
    assert (Hnext : days_from_civil year (months mod 12 + 1) d
                    = days_from_civil year' month' (d - days)).
    { rewrite (days_from_civil_day _ _ d), (days_from_civil_day _ _ (d - days)).
      subst year' month'. rewrite daysInMonth_next. fold days. lia. }
    rewrite Hnext, civil_from_days_from_civil by lia. cbn [fst snd].
    subst year' month' year. repeat split; Z.div_mod_to_equations; lia.
Qed.
End Calendar.

Section CalendarUnits.
Import Js Grammar DateFunctions Parts DateFns.

Variables (host : Host) (tz : Z).
Hypothesis fixed_offset : ∀ t b, LocalTZA host t b = tz.

Lemma Date_of_fields_made clock T year months :
  getTime (now clock) = Some T →
  Date_of_fields host (Some year) (Some months)
    (getDate host (now clock)) (getHours host (now clock)) (getMinutes host (now clock))
    (getSeconds host (now clock)) (getMilliseconds host (now clock))
  = Date_of_value
      (Some (MakeDate
               (MakeDay (if (0 <=? year) && (year <=? 99) then 1900 + year else year) months
                  (DateFromTime (T + tz)))
               (TimeWithinDay (T + tz)) - tz)).
Proof.
  intros Hnow. unfold Date_of_fields, getDate, getHours, getMinutes, getSeconds,
    getMilliseconds, LocalTime, UTC. rewrite Hnow. simpl.
  by rewrite !fixed_offset, MakeTime_parts.
Qed.

Lemma made_fields (r : Date) yr months d t :
  1 ≤ d ≤ 31 →
  r = Date_of_value (Some (MakeDate (MakeDay yr months d) (TimeWithinDay t) - tz)) →
  is_Some (getTime r) →
  let year := yr + months / 12 in
  let days := daysInMonth year (months mod 12 + 1) in
  getHours host r = Some (HourFromTime t)
  ∧ getMinutes host r = Some (MinFromTime t)
  ∧ getSeconds host r = Some (SecFromTime t)
  ∧ getMilliseconds host r = Some (msFromTime t)
  ∧ (d ≤ days →
     getFullYear host r = Some year ∧ getMonth host r = Some (months mod 12)
     ∧ getDate host r = Some d)
  ∧ (days < d →
     getFullYear host r = Some (yr + (months + 1) / 12)
     ∧ getMonth host r = Some ((months + 1) mod 12)
     ∧ getDate host r = Some (d - days)).
Proof.
  intros Hd -> Hvalid year days.
  set (made := MakeDate (MakeDay yr months d) (TimeWithinDay t)) in *.
  assert (Hr : getTime (Date_of_value (Some (made - tz))) = Some (made - tz)).
  { unfold Date_of_value, TimeClip in *. simpl in *. by destruct (Z.abs (made - tz) <=? maxTime);
      [|destruct Hvalid as [? [=]]]. }
  unfold getHours, getMinutes, getSeconds, getMilliseconds, getFullYear, getMonth, getDate,
    LocalTime. rewrite Hr. simpl. rewrite fixed_offset.
  replace (made - tz + tz) with made by lia.
  destruct (MakeDate_parts (MakeDay yr months d) t) as (_ & Hh & Hmi & Hs & Hms).
  fold made in Hh, Hmi, Hs, Hms. rewrite Hh, Hmi, Hs, Hms.
  destruct (MakeDay_fields yr months d t Hd) as [Hfits Hover].
  fold made year days in Hfits, Hover.
  split; [done|]. split; [done|]. split; [done|]. split; [done|]. split.
  - intros Hcase. by destruct (Hfits Hcase) as (-> & -> & ->).
  - intros Hcase. by destruct (Hover Hcase) as (-> & -> & ->).
Qed.

Lemma now_fields clock T :
  getTime (now clock) = Some T →
  getFullYear host (now clock) = Some (YearFromTime (T + tz))
  ∧ getMonth host (now clock) = Some (MonthFromTime (T + tz))
  ∧ getDate host (now clock) = Some (DateFromTime (T + tz))
  ∧ getHours host (now clock) = Some (HourFromTime (T + tz))
  ∧ getMinutes host (now clock) = Some (MinFromTime (T + tz))
  ∧ getSeconds host (now clock) = Some (SecFromTime (T + tz))
  ∧ getMilliseconds host (now clock) = Some (msFromTime (T + tz))
  ∧ 0 ≤ MonthFromTime (T + tz) ≤ 11 ∧ 1 ≤ DateFromTime (T + tz) ≤ 31.
Proof.
  intros Hnow. unfold getFullYear, getMonth, getDate, getHours, getMinutes, getSeconds,
    getMilliseconds, LocalTime. rewrite Hnow. simpl. rewrite fixed_offset.
  repeat split; try done;
    pose proof (civil_from_days_range (Day (T + tz))); unfold MonthFromTime, DateFromTime; lia.
Qed.

Lemma evaluate_month clock sign digits :
  sign ∈ [EmptyString; "+"; "-"] → every is_digit digits = true → digits ≠ EmptyString →
  evaluate host ("now | add " +:+ sign +:+ digits +:+ " month") clock
  = Return (Date_of_fields host
              (getFullYear host (now clock))
              (num_add (getMonth host (now clock)) (Some (Number (sign +:+ digits))))
              (getDate host (now clock)) (getHours host (now clock))
              (getMinutes host (now clock)) (getSeconds host (now clock))
              (getMilliseconds host (now clock))).
Proof.
  intros Hsign Hdigits Hne.
  change (evaluate host ("now " +:+ "|" +:+ " " +:+ "add" +:+ " " +:+ sign +:+ EmptyString
                           +:+ digits +:+ " " +:+ "month" +:+ EmptyString) clock
          = switch_unit host (start_date host (trim "now ") clock)
              (Some (Number (sign +:+ digits))) "month").
  apply evaluate_operation; try done. unfold unit_alternatives. rewrite !elem_of_cons. tauto.
Qed.

Lemma evaluate_year clock sign digits :
  sign ∈ [EmptyString; "+"; "-"] → every is_digit digits = true → digits ≠ EmptyString →
  evaluate host ("now | add " +:+ sign +:+ digits +:+ " year") clock
  = Return (Date_of_fields host
              (num_add (getFullYear host (now clock)) (Some (Number (sign +:+ digits))))
              (getMonth host (now clock))
              (getDate host (now clock)) (getHours host (now clock))
              (getMinutes host (now clock)) (getSeconds host (now clock))
              (getMilliseconds host (now clock))).
Proof.
  intros Hsign Hdigits Hne.
  change (evaluate host ("now " +:+ "|" +:+ " " +:+ "add" +:+ " " +:+ sign +:+ EmptyString
                           +:+ digits +:+ " " +:+ "year" +:+ EmptyString) clock
          = switch_unit host (start_date host (trim "now ") clock)
              (Some (Number (sign +:+ digits))) "year").
  apply evaluate_operation; try done. unfold unit_alternatives. rewrite !elem_of_cons. tauto.
Qed.

(** X5.  In a time zone with a fixed offset, [add N month] keeps the time of
    day and moves the month by [N], carrying into the year; the day of
    the month is kept when the month reached has it, and otherwise is
    not clamped to the end of that month but counted on into the next
    one (31 January plus one month is 2 or 3 March). *)
Theorem evaluate_add_month clock sign digits Y M d r :
  sign ∈ [EmptyString; "+"; "-"] → every is_digit digits = true → digits ≠ EmptyString →
  getFullYear host (now clock) = Some Y → ¬ (0 ≤ Y ≤ 99) →
  getMonth host (now clock) = Some M → getDate host (now clock) = Some d →
  evaluate host ("now | add " +:+ sign +:+ digits +:+ " month") clock = Return r →
  is_Some (getTime r) →
  let months := M + Number (sign +:+ digits) in
  let days := daysInMonth (Y + months / 12) (months mod 12 + 1) in
  getHours host r = getHours host (now clock)
  ∧ getMinutes host r = getMinutes host (now clock)
  ∧ getSeconds host r = getSeconds host (now clock)
  ∧ getMilliseconds host r = getMilliseconds host (now clock)
  ∧ (d ≤ days →
     getFullYear host r = Some (Y + months / 12) ∧ getMonth host r = Some (months mod 12)
     ∧ getDate host r = Some d)
  ∧ (days < d →
     getFullYear host r = Some (Y + (months + 1) / 12)
     ∧ getMonth host r = Some ((months + 1) mod 12)
     ∧ getDate host r = Some (d - days)).
Proof.
  intros Hsign Hdigits Hne HY Hcentury HM Hd. rewrite evaluate_month by done.
  intros [= <-] Hvalid.
  destruct (getTime (now clock)) as [T|] eqn:Hnow;
    [|by unfold getFullYear in HY; rewrite Hnow in HY].
  rewrite HY, HM in Hvalid |- *. cbn [num_add mbind option_bind] in Hvalid |- *.
  rewrite (Date_of_fields_made clock T _ _ Hnow) in Hvalid |- *.
  destruct (now_fields clock T Hnow) as (HY' & HM' & Hd' & -> & -> & -> & -> & _ & Hrange).
  rewrite HY' in HY. rewrite HM' in HM. rewrite Hd' in Hd. simplify_eq.
  assert (Hyear : (0 <=? YearFromTime (T + tz)) && (YearFromTime (T + tz) <=? 99) = false).
  { apply andb_false_iff. rewrite Z.leb_gt, Z.leb_gt. lia. }
  rewrite Hyear in Hvalid |- *.
  by apply (made_fields _ _ _ _ _ Hrange eq_refl Hvalid).
Qed.

(** X6.  In a time zone with a fixed offset, [add N year] keeps the time of
    day, the month and (29 February apart, which becomes 1 March) the
    day, and moves the year by [N]; but a year that comes out between 0
    and 99 is taken for a year of the twentieth century. *)
Theorem evaluate_add_year clock sign digits Y M d r :
  sign ∈ [EmptyString; "+"; "-"] → every is_digit digits = true → digits ≠ EmptyString →
  getFullYear host (now clock) = Some Y →
  getMonth host (now clock) = Some M → getDate host (now clock) = Some d →
  evaluate host ("now | add " +:+ sign +:+ digits +:+ " year") clock = Return r →
  is_Some (getTime r) →
  let year := Y + Number (sign +:+ digits) in
  let year' := if (0 <=? year) && (year <=? 99) then 1900 + year else year in
  let days := daysInMonth year' (M + 1) in
  getHours host r = getHours host (now clock)
  ∧ getMinutes host r = getMinutes host (now clock)
  ∧ getSeconds host r = getSeconds host (now clock)
  ∧ getMilliseconds host r = getMilliseconds host (now clock)
  ∧ (d ≤ days →
     getFullYear host r = Some year' ∧ getMonth host r = Some M ∧ getDate host r = Some d)
  ∧ (days < d →
     getFullYear host r = Some year' ∧ getMonth host r = Some (M + 1)
     ∧ getDate host r = Some (d - days)).
Proof.
  intros Hsign Hdigits Hne HY HM Hd. rewrite evaluate_year by done.
  intros [= <-] Hvalid.
  destruct (getTime (now clock)) as [T|] eqn:Hnow;
    [|by unfold getFullYear in HY; rewrite Hnow in HY].
  rewrite HY, HM in Hvalid |- *. cbn [num_add mbind option_bind] in Hvalid |- *.
  rewrite (Date_of_fields_made clock T _ _ Hnow) in Hvalid |- *.
  destruct (now_fields clock T Hnow)
    as (HY' & HM' & Hd' & -> & -> & -> & -> & HMrange & Hrange).
  rewrite HY' in HY. rewrite HM' in HM. rewrite Hd' in Hd. simplify_eq.
  remember (MonthFromTime (T + tz)) as M eqn:HMdef. clear HMdef.
  remember (DateFromTime (T + tz)) as d eqn:Hddef. clear Hddef.
  set (year := YearFromTime (T + tz) + Number (sign +:+ digits)) in *.
  set (year' := if (0 <=? year) && (year <=? 99) then 1900 + year else year) in *.
  set (days := daysInMonth year' (M + 1)).
  pose proof (made_fields _ year' M _ _ Hrange eq_refl Hvalid) as Hfields.
  cbv zeta in Hfields.
  assert (HM0 : M / 12 = 0 ∧ M mod 12 = M) by (Z.div_mod_to_equations; lia).
  destruct HM0 as [Hdiv Hmod]. rewrite Hdiv, Hmod, Z.add_0_r in Hfields.
  fold days in Hfields.
  destruct Hfields as (? & ? & ? & ? & Hfits & Hover).
  split; [done|]. split; [done|]. split; [done|]. split; [done|]. split; [done|].
  intros Hcase. destruct (Hover Hcase) as (-> & -> & ->).
  assert (HM11 : M ≠ 11).
  { intros HM11.
    assert (days = 31).
    { subst days. rewrite HM11. unfold daysInMonth, days_from_civil. cbv zeta.
      change (11 + 1 <=? 2) with false.
      change ((11 + 1) mod 12 + 1 <=? 2) with true. change (2 <? 11 + 1) with true.
      change (2 <? (11 + 1) mod 12 + 1) with false. cbv iota.
      Z.div_mod_to_equations. lia. }
    lia. }
  assert (HM1 : (M + 1) / 12 = 0 ∧ (M + 1) mod 12 = M + 1) by (Z.div_mod_to_equations; lia).
  destruct HM1 as [-> ->]. by rewrite Z.add_0_r.
Qed.
End CalendarUnits.

(** * More on the processor *)

(** ** The steps of the loop *)
Section Suffix.
Context {A : Type}.

Lemma suffix_cons_elem_of (x : A) l k : (x :: l) `suffix_of` k → x ∈ k ∧ l `suffix_of` k.
Proof.
  intros [pre ->]. split.
  - rewrite elem_of_app, elem_of_cons. auto.
  - exists (pre ++ [x]). by rewrite <- app_assoc.
Qed.

Lemma Forall_suffix (P : A → Prop) l k : l `suffix_of` k → Forall P k → Forall P l.
Proof. intros [pre ->] H. by apply Forall_app in H as [_ ?]. Qed.
End Suffix.
Section Loop.
Context {D : Type} `{!Codec D}.
Import QueryDocumentSnapshot.

Implicit Types (db : Firestore D) (w : World D) (jobDocument : QueryDocumentSnapshot D).
Implicit Types (jobDefinition : JobDefinition) (execution : Execution.t).

Lemma act_events (a : Action D) w : events (act a w) = events w.
Proof.
  destruct a; simpl; [|done..]. unfold close. simpl.
  by destruct (unsubscribe (this w)), (reject (this w)).
Qed.

(** *** A relation every step of the loop is in

    [R w b w']: the processor may take the world from [w] to [w'],
    ending there ([b] false) or suspended there for good ([b] true). *)
Section Relation.
Variable R : World D → bool → World D → Prop.

Hypothesis R_refl : ∀ w, R w false w.
Hypothesis R_seq : ∀ w w1 b w2, R w false w1 → R w1 b w2 → R w b w2.
Hypothesis R_act : ∀ w a, Act a ∈ events w → R w false (act a w).
Hypothesis R_deliver : ∀ w b evs, evs `suffix_of` events w → R w b (set_events evs w).
Hypothesis R_attempt_claim : ∀ w jobDocument fault,
  R w false (set_firestore (attempt (claim_writes jobDocument) fault (firestore w)).2 w).
Hypothesis R_attempt_completion : ∀ w jobDefinition execution fault,
  R w false
    (set_firestore (attempt (completion_writes jobDefinition execution) fault (firestore w)).2 w).
Hypothesis R_log : ∀ w e, R w false (set_console (e :: console w) w).
Hypothesis R_random : ∀ w r, R w false (set_random r w).
Hypothesis R_listen : ∀ w o w', listen w = Some (o, w') → R w (is_pending o) w'.

Lemma within_await {X} (pick : Event D → option X) evs w x w' :
  evs `suffix_of` events w → await pick evs w = (x, w') →
  R w (bool_decide (x = None)) w'.
Proof.
  revert w. induction evs as [|ev evs IH]; intros w Hsuffix; simpl.
  - intros [= <- <-]. by apply R_deliver.
  - destruct (suffix_cons_elem_of _ _ _ Hsuffix) as [Hin Hevs].
    destruct ev as [a| |e|fault|r].
    + intros Hawait. apply R_seq with (act a w); [by apply R_act|].
      apply IH; [by rewrite act_events|done].
    + destruct (pick Snapshot) as [x'|]; [|by apply IH].
      intros [= <- <-]. by apply R_deliver.
    + destruct (pick (ListenError e)) as [x'|]; [|by apply IH].
      intros [= <- <-]. by apply R_deliver.
    + destruct (pick (TxAttempt fault)) as [x'|]; [|by apply IH].
      intros [= <- <-]. by apply R_deliver.
    + destruct (pick (Response r)) as [x'|]; [|by apply IH].
      intros [= <- <-]. by apply R_deliver.
Qed.

Lemma within_right {A} (a : A) : within R (TE.right a).
Proof. intros w o w' [= <- <-]. apply R_refl. Qed.

Lemma within_left {A} e : within R (TE.left (A:=A) e).
Proof. intros w o w' [= <- <-]. apply R_refl. Qed.

Lemma within_chainW {A B} (f : A → TaskEither D B) (ma : TaskEither D A) :
  within R ma → (∀ a, within R (f a)) → within R (TE.chainW f ma).
Proof.
  intros Hma Hf w o w'. unfold TE.chainW.
  destruct (ma w) as [[[a|e|] w1]|] eqn:Hrun; [|intros [= <- <-]..|done].
  - intros Hfa. apply R_seq with w1; [exact (Hma _ _ _ Hrun)|exact (Hf _ _ _ _ Hfa)].
  - exact (Hma _ _ _ Hrun).
  - exact (Hma _ _ _ Hrun).
Qed.

Lemma within_chainFirstW {A B} (f : A → TaskEither D B) (ma : TaskEither D A) :
  within R ma → (∀ a, within R (f a)) → within R (TE.chainFirstW f ma).
Proof.
  intros Hma Hf. apply within_chainW; [done|]. intros a.
  apply within_chainW; [done|]. intros _. apply within_right.
Qed.

Lemma within_orElseW {A} (f : Reason → TaskEither D A) (ma : TaskEither D A) :
  within R ma → (∀ e, within R (f e)) → within R (TE.orElseW f ma).
Proof.
  intros Hma Hf w o w'. unfold TE.orElseW.
  destruct (ma w) as [[[a|e|] w1]|] eqn:Hrun; [intros [= <- <-]| |intros [= <- <-]|done].
  - exact (Hma _ _ _ Hrun).
  - intros Hfe. apply R_seq with w1; [exact (Hma _ _ _ Hrun)|exact (Hf _ _ _ _ Hfe)].
  - exact (Hma _ _ _ Hrun).
Qed.

Lemma within_tryCatch {A} (promise : TaskEither D A) onRejected :
  within R promise → (∀ e w, R w false (onRejected e w).2) →
  within R (TE.tryCatch promise onRejected).
Proof.
  intros Hp Hon w o w'. unfold TE.tryCatch.
  destruct (promise w) as [[[a|e|] w1]|] eqn:Hrun; [intros [= <- <-]| |intros [= <- <-]|done].
  - exact (Hp _ _ _ Hrun).
  - specialize (Hon e w1). destruct (onRejected e w1) as [e' w'']. intros [= <- <-].
    apply R_seq with w1; [exact (Hp _ _ _ Hrun)|exact Hon].
  - exact (Hp _ _ _ Hrun).
Qed.

Lemma within_runTransaction_claim jobDocument : within R (runTransaction (claim_writes jobDocument)).
Proof.
  intros w o w'. unfold runTransaction, next_attempt.
  destruct (await _ _ _) as [[fault|] w1] eqn:Hawait;
    apply within_await in Hawait; try done.
  - pose proof (R_attempt_claim w1 jobDocument fault) as Hstep.
    destruct (attempt _ _ _) as [r db]. intros [= <- <-].
    apply R_seq with w1; [done|]. by destruct r.
  - by intros [= <- <-].
Qed.

Lemma within_runTransaction_completion jobDefinition execution :
  within R (runTransaction (completion_writes jobDefinition execution)).
Proof.
  intros w o w'. unfold runTransaction, next_attempt.
  destruct (await _ _ _) as [[fault|] w1] eqn:Hawait;
    apply within_await in Hawait; try done.
  - pose proof (R_attempt_completion w1 jobDefinition execution fault) as Hstep.
    destruct (attempt _ _ _) as [r db]. intros [= <- <-].
    apply R_seq with w1; [done|]. by destruct r.
  - by intros [= <- <-].
Qed.

Lemma within_markJobAsRunning jobDocument : within R (markJobAsRunning jobDocument).
Proof.
  apply within_tryCatch; [|intros; apply R_refl].
  apply within_orElseW; [apply within_runTransaction_claim|].
  intros e. apply within_left.
Qed.

Lemma within_markJobAsComplete jobDefinition execution :
  within R (markJobAsComplete jobDefinition execution).
Proof.
  apply within_chainW; [apply within_right|]. intros _.
  apply within_tryCatch; [apply within_runTransaction_completion|].
  intros e w. apply R_log.
Qed.

Lemma within_processJob jobDefinition : within R (processJob jobDefinition).
Proof.
  intros w o w'. rewrite processJob_response. unfold next_response.
  destruct (await _ _ _) as [[[e|response]|] w1] eqn:Hawait;
    apply within_await in Hawait; try done.
  - by intros [= <- <-].
  - intros Hcomplete. apply R_seq with w1; [done|].
    exact (within_markJobAsComplete _ _ _ _ _ Hcomplete).
  - by intros [= <- <-].
Qed.

Lemma within_wait fuel :
  within R (waitForNextJob fuel)
  ∧ ∀ docs index, within R (takeFirstValidAvailableJob fuel docs index).
Proof.
  induction fuel as [|fuel [IHwait IHtake]]; [by split; intros; intros w o w'|]. split.
  - intros w o w'. simpl. destruct (decide (state (this w) = closed)).
    { apply within_left. }
    apply within_chainW.
    + apply within_tryCatch; [exact R_listen|]. intros; apply R_refl.
    + intros snapshot. apply within_chainW; [apply within_right|].
      intros snapshot'. destruct (length snapshot' =? 0)%nat; [done|].
      intros w1 o1 w2. unfold shuffled.
      destruct (Lodash.shuffle _ _) as [docs random']. intros Htake.
      apply R_seq with (set_random random' w1); [apply R_random|].
      exact (IHtake _ _ _ _ _ Htake).
  - intros docs index. simpl. destruct (docs !! index) as [jobDocument|]; [|done].
    apply within_orElseW; [|by intros e].
    apply within_chainFirstW; [|intros _; apply within_markJobAsRunning].
    destruct (decode _); [apply within_right|apply within_left].
Qed.

Lemma within_takeNextJob fuel : within R (takeNextJob fuel).
Proof.
  induction fuel as [|fuel IH]; [by intros w o w'|]. simpl.
  apply within_chainW; [|done].
  apply within_chainFirstW; [apply within_wait|].
  intros jobDefinition. apply within_processJob.
Qed.
End Relation.
End Loop.

(** ** The store *)
Section StoreRelation.
Context {D : Type} `{!Codec D}.
Import QueryDocumentSnapshot.

Implicit Types (db : Firestore D) (w : World D) (jobDocument : QueryDocumentSnapshot D).
Implicit Types (jobDefinition : JobDefinition) (execution : Execution.t).

Variable S : Firestore D → Firestore D → Prop.
Hypothesis S_refl : ∀ db, S db db.
Hypothesis S_trans : ∀ db1 db2 db3, S db1 db2 → S db2 db3 → S db1 db3.
Hypothesis S_claim : ∀ jobDocument db db',
  commit (claim_writes jobDocument) db = inr db' → S db db'.
Hypothesis S_completion : ∀ jobDefinition execution db db',
  commit (completion_writes jobDefinition execution) db = inr db' → S db db'.

Lemma S_attempt writes fault db :
  (∀ db', commit writes db = inr db' → S db db') → S db (attempt writes fault db).2.
Proof.
  intros Hcommit. unfold attempt. destruct fault; [apply S_refl|].
  destruct (commit writes db) as [e|db'] eqn:Hc; simpl; [apply S_refl|by apply Hcommit].
Qed.

Lemma takeNextJob_store fuel : within (store_step S) (takeNextJob fuel).
Proof.
  apply within_takeNextJob; unfold store_step.
  - by intros w Hw.
  - intros w w1 b w2 H1 H2 Hw. destruct (H1 Hw) as [Hw1 HS1].
    destruct (H2 Hw1) as [Hw2 HS2]. split; [done|]. by apply S_trans with (firestore w1).
  - intros w a Hin Hw. rewrite act_events. split; [done|].
    unfold undisturbed in Hw. rewrite Forall_forall in Hw. specialize (Hw _ Hin).
    destruct a; simpl in *; [|done|apply S_refl].
    unfold close. simpl. destruct (unsubscribe (this w)), (reject (this w)); apply S_refl.
  - intros w b evs Hsuffix Hw. simpl. split; [|apply S_refl].
    by apply (Forall_suffix _ _ _ Hsuffix).
  - intros w jobDocument fault Hw. simpl. split; [done|]. apply S_attempt. apply S_claim.
  - intros w jobDefinition execution fault Hw. simpl. split; [done|].
    apply S_attempt. apply S_completion.
  - intros w e Hw. simpl. split; [done|apply S_refl].
  - intros w r Hw. simpl. split; [done|apply S_refl].
  - intros w o w'. unfold listen.
    set (w0 := set_listeners _ _).
    assert (Hgen : ∀ promise listener evs w1 r w2,
      evs `suffix_of` events w1 → undisturbed (events w1) →
      await_snapshot promise listener evs w1 = (r, w2) →
      undisturbed (events w2) ∧ S (firestore w1) (firestore w2)).
    { clear w0. intros promise listener evs.
      induction evs as [|ev evs IH]; intros w1 r w2 Hsuffix Hw1; simpl.
      - intros [= <- <-]. simpl. split; [by apply Forall_nil|apply S_refl].
      - destruct (suffix_cons_elem_of _ _ _ Hsuffix) as [Hin Hevs].
        pose proof (Forall_suffix _ _ _ Hevs Hw1) as Htail.
        destruct ev as [a| |e|fault|r0]; try (by apply IH).
        + assert (Hsame : firestore (act a w1) = firestore w1).
          { unfold undisturbed in Hw1. rewrite Forall_forall in Hw1. specialize (Hw1 _ Hin).
            destruct a; simpl in *; [|done..].
            unfold close. simpl. by destruct (unsubscribe (this w1)), (reject (this w1)). }
          destruct (decide _).
          * intros Hawait. apply IH in Hawait; rewrite ?act_events; try done.
            by rewrite Hsame in Hawait.
          * intros [= <- <-]. simpl. rewrite Hsame. split; [done|apply S_refl].
        + destruct (decide _); [|by apply IH].
          destruct (_ =? _)%nat; [by apply IH|]. intros [= <- <-]. simpl.
          split; [done|]. destruct (unsubscribe (this w1)); apply S_refl.
        + destruct (decide _); [|by apply IH]. intros [= <- <-]. simpl.
          split; [done|apply S_refl]. }
    destruct (await_snapshot _ _ _ _) as [r w1] eqn:Hawait. intros Hresult Hw.
    apply Hgen in Hawait; [|done..].
    assert (w' = w1) as -> by (destruct r; congruence). done.
Qed.

Lemma run_store fuel w o w' :
  undisturbed (events w) → run fuel w = Some (o, w') → S (firestore w) (firestore w').
Proof. intros Hw Hrun. by apply (takeNextJob_store fuel _ _ _ Hrun). Qed.
End StoreRelation.

Section Lifecycle.
Context {D : Type} `{!Codec D}.
Import QueryDocumentSnapshot.

Implicit Types (db : Firestore D) (w : World D) (jobDocument : QueryDocumentSnapshot D).
Implicit Types (jobDefinition : JobDefinition) (execution : Execution.t).

Lemma claim_committed jobDocument db db' :
  commit (claim_writes jobDocument) db = inr db' →
  is_Some (db Queued !! id jobDocument) ∧ db Running !! id jobDocument = None
  ∧ db' Queued = delete (id jobDocument) (db Queued)
  ∧ db' Running = <[id jobDocument := data jobDocument]> (db Running)
  ∧ db' Complete = db Complete.
Proof.
  rewrite commit_claim.
  destruct (db Queued !! id jobDocument) as [queuedDoc|] eqn:Hq; [|done].
  destruct (db Running !! id jobDocument) eqn:Hr; [done|]. intros [= <-].
  by rewrite update_ne, !update_eq, !update_ne.
Qed.

Lemma completion_committed jobDefinition execution db db' :
  commit (completion_writes jobDefinition execution) db = inr db' →
  ∃ record,
    db Complete !! JobDefinition.id jobDefinition = None
    ∧ is_Some (db Running !! JobDefinition.id jobDefinition)
    ∧ db' Queued = db Queued
    ∧ db' Running = delete (JobDefinition.id jobDefinition) (db Running)
    ∧ db' Complete = <[JobDefinition.id jobDefinition := record]> (db Complete).
Proof.
  unfold completion_writes. simpl.
  set (i := JobDefinition.id jobDefinition). set (record := CompletionDocument _).
  destruct (db Complete !! i) eqn:Hc; [done|]. rewrite update_ne by done.
  destruct (db Running !! i) as [runningDoc|] eqn:Hr; [|done]. intros [= <-].
  exists record. split; [done|]. split; [done|]. split; [by rewrite !update_ne|].
  split; [by rewrite update_eq, update_ne|by rewrite update_ne, update_eq].
Qed.

Lemma held_claim jobDocument db db' i :
  commit (claim_writes jobDocument) db = inr db' → held db i ↔ held db' i.
Proof.
  intros (Hq & Hr & Hq' & Hr' & Hc')%claim_committed.
  destruct (decide (i = id jobDocument)) as [->|Hi].
  - split; intros _; [exists Running|exists Queued]; [|done].
    by rewrite Hr', lookup_insert_eq.
  - split; intros [c Hc]; exists c; destruct c;
      by rewrite ?Hq', ?Hr', ?Hc', ?lookup_delete_ne, ?lookup_insert_ne in * by done.
Qed.

Lemma held_completion jobDefinition execution db db' i :
  commit (completion_writes jobDefinition execution) db = inr db' → held db i ↔ held db' i.
Proof.
  intros (record & Hc & Hr & Hq' & Hr' & Hc')%completion_committed.
  destruct (decide (i = JobDefinition.id jobDefinition)) as [->|Hi].
  - split; intros _; [exists Complete|exists Running]; [|done].
    by rewrite Hc', lookup_insert_eq.
  - split; intros [c Hin]; exists c; destruct c;
      by rewrite ?Hq', ?Hr', ?Hc', ?lookup_delete_ne, ?lookup_insert_ne in * by done.
Qed.

(** X7.  Left to itself, the loop keeps every job, and keeps it in one
    place: an id is in the store after a run exactly when it was
    before, and if no id was in two collections, none is. *)
Theorem run_keeps_every_job fuel w o w' :
  undisturbed (events w) → run fuel w = Some (o, w') →
  (∀ i, held (firestore w) i ↔ held (firestore w') i)
  ∧ (exclusive (firestore w) → exclusive (firestore w')).
Proof.
  intros Hw Hrun. split.
  - apply (run_store (λ db db', ∀ i, held db i ↔ held db' i)) with fuel o; try done.
    + intros db1 db2 db3 H12 H23 i. by rewrite H12.
    + intros jobDocument db db' Hcommit i. by apply (held_claim jobDocument).
    + intros jobDefinition execution db db' Hcommit i.
      by apply (held_completion jobDefinition execution).
  - apply (run_store (λ db db', exclusive db → exclusive db')) with fuel o; try done.
    + intros db1 db2 db3 H12 H23 H1. auto.
    + intros jobDocument db db' Hcommit Hex. by apply (exclusive_claim jobDocument db).
    + intros jobDefinition execution db db' Hcommit Hex.
      by apply (exclusive_completion jobDefinition execution db).
Qed.

(** X8.  The loop takes documents out of [queued] and never puts one in;
    it adds documents to [complete] and never removes or changes
    one. *)
Theorem run_drains_queue_fills_complete fuel w o w' :
  undisturbed (events w) → run fuel w = Some (o, w') →
  firestore w' Queued ⊆ firestore w Queued ∧ firestore w Complete ⊆ firestore w' Complete.
Proof.
  intros Hw Hrun.
  apply (run_store (λ db db', db' Queued ⊆ db Queued ∧ db Complete ⊆ db' Complete))
    with fuel o; try done.
  - intros db1 db2 db3 [Hq12 Hc12] [Hq23 Hc23]. split; by etrans.
  - intros jobDocument db db' (Hq & Hr & -> & _ & ->)%claim_committed.
    split; [apply delete_subseteq|done].
  - intros jobDefinition execution db db' (record & Hc & Hr & -> & _ & ->)%completion_committed.
    split; [done|by apply insert_subseteq].
Qed.
End Lifecycle.

Section Listeners.
Context {D : Type} `{!Codec D}.
Import QueryDocumentSnapshot.

Implicit Types (db : Firestore D) (w : World D) (jobDocument : QueryDocumentSnapshot D).

Lemma remove_subseteq (n : nat) (X : gset nat) : X ∖ {[n]} ⊆ X.
Proof. by intros x [? _]%elem_of_difference. Qed.

Lemma close_listeners w : listeners (close w) ⊆ listeners w ∧ pending (close w) ⊆ pending w.
Proof.
  unfold close. simpl.
  destruct (unsubscribe (this w)), (reject (this w)); simpl;
    split; first [done | apply remove_subseteq].
Qed.

Lemma close_this w :
  unsubscribe (this (close w)) = unsubscribe (this w)
  ∧ reject (this (close w)) = reject (this w).
Proof. unfold close. simpl. by destruct (unsubscribe (this w)), (reject (this w)). Qed.

Lemma act_listeners (a : Action D) w :
  listeners (act a w) ⊆ listeners w ∧ pending (act a w) ⊆ pending w
  ∧ unsubscribe (this (act a w)) = unsubscribe (this w)
  ∧ reject (this (act a w)) = reject (this w)
  ∧ (pending (act a w) = pending w ∨ act a w = close w).
Proof.
  destruct a; simpl; [|repeat split; by auto..].
  destruct (close_listeners w) as [Hl Hp]. destruct (close_this w) as [Hu Hr].
  repeat split; by auto.
Qed.

Lemma await_snapshot_listeners n evs w r w' :
  unsubscribe (this w) = Some n → reject (this w) = Some n → n ∈ pending w →
  await_snapshot n n evs w = (r, w') →
  unsubscribe (this w') = Some n ∧ reject (this w') = Some n
  ∧ listeners w' ⊆ listeners w ∧ pending w' ⊆ pending w
  ∧ (r ≠ StillWaiting → (n ∉ listeners w') ∧ (n ∉ pending w')).
Proof.
  revert w. induction evs as [|ev evs IH]; intros w Hu Hr Hn; simpl.
  - intros [= <- <-]. done.
  - destruct ev as [a| |e|fault|r0]; try (by apply IH).
    + destruct (act_listeners a w) as (Hl & Hp & Hu' & Hr' & Hcase).
      destruct (decide _) as [Hin|Hout].
      * intros Hawait. apply IH in Hawait as (? & ? & ? & ? & ?); [|congruence..|done].
        split; [done|]. split; [done|]. split; [by etrans|]. split; [by etrans|done].
      * intros [= <- <-]. simpl. rewrite Hu', Hr'. repeat split; try done.
        destruct Hcase as [Hsame|Hclose]; [by rewrite Hsame in Hout|].
        rewrite Hclose. by apply close_unsubscribes.
    + destruct (decide _) as [Hin|Hout]; [|by apply IH].
      destruct (_ =? _)%nat; [by apply IH|]. intros [= <- <-]. rewrite Hu. simpl.
      repeat split; try done; first [apply remove_subseteq | apply not_elem_of_remove].
    + destruct (decide _) as [Hin|Hout]; [|by apply IH]. intros [= <- <-]. simpl.
      repeat split; try done; first [apply remove_subseteq | apply not_elem_of_remove].
Qed.

Lemma listen_listeners w o w' : listen w = Some (o, w') → listener_step w (is_pending o) w'.
Proof.
  unfold listen. destruct (await_snapshot _ _ _ _) as [r w1] eqn:Hawait.
  apply await_snapshot_listeners in Hawait as (Hu & Hr & Hl & Hp & Hfinal);
    [|done|done|simpl; apply elem_of_union_l, elem_of_singleton; done].
  simpl in Hl, Hp. intros Hresult.
  assert (w' = w1) as -> by (destruct r; congruence).
  assert (Hcase : (r = StillWaiting ∧ is_pending o = true)
                  ∨ (r ≠ StillWaiting ∧ is_pending o = false)).
  { destruct r; simplify_eq; simpl; auto. }
  unfold listener_step, at_most. rewrite Hu, Hr.
  destruct Hcase as [[-> ->]|[Hr' ->]].
  - split; intros n Hn; [apply Hl in Hn|apply Hp in Hn];
      apply elem_of_union in Hn as [->%elem_of_singleton|?]; auto.
  - destruct (Hfinal Hr') as [Hnl Hnp].
    split; intros n Hn; left.
    + pose proof (Hl _ Hn) as Hn'. apply elem_of_union in Hn' as [->%elem_of_singleton|?]; done.
    + pose proof (Hp _ Hn) as Hn'. apply elem_of_union in Hn' as [->%elem_of_singleton|?]; done.
Qed.

Lemma takeNextJob_listeners fuel : within listener_step (takeNextJob fuel).
Proof.
  apply within_takeNextJob; unfold listener_step, at_most.
  - intros w. split; auto.
  - intros w w1 b w2 [Hl1 Hp1] [Hl2 Hp2]. split; intros n Hn.
    + destruct (Hl2 _ Hn) as [Hn1|?]; [|by auto].
      destruct (Hl1 _ Hn1) as [?|[[=] _]]. by auto.
    + destruct (Hp2 _ Hn) as [Hn1|?]; [|by auto].
      destruct (Hp1 _ Hn1) as [?|[[=] _]]. by auto.
  - intros w a _. destruct (act_listeners a w) as (Hl & Hp & _). split; intros n Hn; auto.
  - intros w b evs _. simpl. split; auto.
  - intros w jobDocument fault. simpl. split; auto.
  - intros w jobDefinition execution fault. simpl. split; auto.
  - intros w e. simpl. split; auto.
  - intros w r. simpl. split; auto.
  - apply listen_listeners.
Qed.

(** X9.  One run of the loop leaves no listener behind: when the loop has
    ended, the listeners attached and the waits pending are among those
    there were before [run()]; while it has not, [close()] detaches and
    rejects what the run has added. *)
Theorem run_detaches_its_listeners fuel w o w' :
  run fuel w = Some (o, w') →
  (o ≠ Pending → listeners w' ⊆ listeners w ∧ pending w' ⊆ pending w)
  ∧ listeners (close w') ⊆ listeners w ∧ pending (close w') ⊆ pending w.
Proof.
  intros Hrun. destruct (takeNextJob_listeners fuel _ _ _ Hrun) as [Hl Hp].
  unfold at_most in *. simpl in Hl, Hp. split; [|split].
  - intros Ho. assert (is_pending o = false) as Hb by (by destruct o).
    rewrite Hb in Hl, Hp.
    split; intros n Hn; [destruct (Hl _ Hn) as [?|[[=] _]]|destruct (Hp _ Hn) as [?|[[=] _]]];
      done.
  - intros n Hn. destruct (close_listeners w') as [Hsub _].
    destruct (Hl _ (Hsub _ Hn)) as [?|[_ Hlast]]; [done|].
    by destruct (close_unsubscribes _ _ Hlast).
  - intros n Hn. destruct (close_listeners w') as [_ Hsub].
    destruct (Hp _ (Hsub _ Hn)) as [?|[_ Hlast]]; [done|].
    by destruct (close_rejects _ _ Hlast).
Qed.
End Listeners.

(** ** How the loop ends *)
Section Outcomes.
Context {D : Type} `{!Codec D}.
Import QueryDocumentSnapshot.

Implicit Types (db : Firestore D) (w : World D) (jobDocument : QueryDocumentSnapshot D).
Implicit Types (jobDefinition : JobDefinition) (execution : Execution.t).
Implicit Types (docs : list (QueryDocumentSnapshot D)).

(** *** What waiting for an event leaves as it was *)
Lemma act_console (a : Action D) w : console (act a w) = console w.
Proof.
  destruct a; simpl; [|done..]. unfold close. simpl.
  by destruct (unsubscribe (this w)), (reject (this w)).
Qed.

Lemma act_firestore (a : Action D) w :
  foreign (Act a) = false → firestore (act a w) = firestore w.
Proof.
  destruct a; simpl; [|done..]. intros _. unfold close. simpl.
  by destruct (unsubscribe (this w)), (reject (this w)).
Qed.

Lemma act_state (a : Action D) w : a ≠ CallClose → state (this (act a w)) = state (this w).
Proof. by destruct a. Qed.

Lemma await_leaves {X} (pick : Event D → option X) evs w x w' :
  await pick evs w = (x, w') →
  console w' = console w
  ∧ (undisturbed evs → firestore w' = firestore w)
  ∧ events w' `suffix_of` evs
  ∧ match x with
    | Some x => ∃ ev, ev ∈ evs ∧ pick ev = Some x ∧ (length (events w') < length evs)%nat
    | None => events w' = []
    end.
Proof.
  revert w. induction evs as [|ev evs IH]; intros w; simpl.
  - by intros [= <- <-].
  - assert (Hstep : ∀ w1, await pick evs w1 = (x, w') →
      console w' = console w1
      ∧ (undisturbed evs → firestore w' = firestore w1)
      ∧ events w' `suffix_of` ev :: evs
      ∧ match x with
        | Some x => ∃ ev', ev' ∈ ev :: evs ∧ pick ev' = Some x
                           ∧ (length (events w') < length (ev :: evs))%nat
        | None => events w' = []
        end).
    { intros w1 Hawait. destruct (IH _ Hawait) as (Hc & Hf & Hs & Hx).
      split; [done|]. split; [done|]. split; [by apply suffix_cons_r|].
      destruct x as [x|]; [|done]. destruct Hx as (ev' & Hin & Hpick & Hlen).
      exists ev'. split; [by apply list_elem_of_further|]. split; [done|]. simpl. lia. }
    assert (Hhere : ∀ x', pick ev = Some x' → (Some x', set_events evs w) = (x, w') →
      console w' = console w
      ∧ (undisturbed (ev :: evs) → firestore w' = firestore w)
      ∧ events w' `suffix_of` ev :: evs
      ∧ match x with
        | Some x => ∃ ev', ev' ∈ ev :: evs ∧ pick ev' = Some x
                           ∧ (length (events w') < length (ev :: evs))%nat
        | None => events w' = []
        end).
    { intros x' Hpick [= <- <-]. simpl. split; [done|]. split; [done|].
      split; [by apply suffix_cons_r|]. exists ev. split; [by apply list_elem_of_here|].
      split; [done|lia]. }
    destruct ev as [a| |e|fault|r].
    + intros Hawait. destruct (Hstep _ Hawait) as (Hc & Hf & Hs & Hx).
      split; [by rewrite Hc, act_console|]. split; [|done].
      intros [Ha Hevs]%Forall_cons. rewrite (Hf Hevs). by apply act_firestore.
    + destruct (pick Snapshot) as [x'|] eqn:Hpick; [by apply (Hhere x')|].
      intros Hawait. destruct (Hstep _ Hawait) as (Hc & Hf & Hs & Hx).
      split; [done|]. split; [|done]. intros [_ Hevs]%Forall_cons. auto.
    + destruct (pick (ListenError e)) as [x'|] eqn:Hpick; [by apply (Hhere x')|].
      intros Hawait. destruct (Hstep _ Hawait) as (Hc & Hf & Hs & Hx).
      split; [done|]. split; [|done]. intros [_ Hevs]%Forall_cons. auto.
    + destruct (pick (TxAttempt fault)) as [x'|] eqn:Hpick; [by apply (Hhere x')|].
      intros Hawait. destruct (Hstep _ Hawait) as (Hc & Hf & Hs & Hx).
      split; [done|]. split; [|done]. intros [_ Hevs]%Forall_cons. auto.
    + destruct (pick (Response r)) as [x'|] eqn:Hpick; [by apply (Hhere x')|].
      intros Hawait. destruct (Hstep _ Hawait) as (Hc & Hf & Hs & Hx).
      split; [done|]. split; [|done]. intros [_ Hevs]%Forall_cons. auto.
Qed.

Lemma next_response_delivered w r w1 :
  next_response w = (Some r, w1) →
  Response r ∈ events w ∧ (length (events w1) < length (events w))%nat.
Proof.
  intros (_ & _ & _ & ev & Hin & Hpick & Hlen)%await_leaves.
  destruct ev; simplify_eq. done.
Qed.

Lemma await_snapshot_events promise listener evs w r w' :
  await_snapshot promise listener evs w = (r, w') →
  events w' `suffix_of` evs
  ∧ match r with
    | StillWaiting => events w' = []
    | _ => (length (events w') < length evs)%nat
    end.
Proof.
  revert w. induction evs as [|ev evs IH]; intros w; simpl.
  - by intros [= <- <-].
  - assert (Hstep : ∀ w1, await_snapshot promise listener evs w1 = (r, w') →
      events w' `suffix_of` ev :: evs
      ∧ match r with
        | StillWaiting => events w' = []
        | _ => (length (events w') < length (ev :: evs))%nat
        end).
    { intros w1 Hawait. destruct (IH _ Hawait) as [Hs Hr]. split; [by apply suffix_cons_r|].
      destruct r; simpl; [lia..|done]. }
    destruct ev as [a| |e|fault|r0]; try (by apply Hstep).
    + destruct (decide _); [by apply Hstep|]. intros [= <- <-]. simpl.
      split; [by apply suffix_cons_r|lia].
    + destruct (decide _); [|by apply Hstep].
      destruct (_ =? _)%nat; [by apply Hstep|]. intros [= <- <-]. simpl.
      split; [by apply suffix_cons_r|lia].
    + destruct (decide _); [|by apply Hstep]. intros [= <- <-]. simpl.
      split; [by apply suffix_cons_r|lia].
Qed.

Lemma listen_events w o w' :
  listen w = Some (o, w') →
  events w' `suffix_of` events w
  ∧ (is_pending o = false → (length (events w') < length (events w))%nat).
Proof.
  unfold listen. destruct (await_snapshot _ _ _ _) as [r w1] eqn:Hawait.
  apply await_snapshot_events in Hawait as [Hs Hr]. simpl in Hs, Hr.
  destruct r; intros [= <- <-]; simpl; done.
Qed.

Lemma takeNextJob_consumes fuel : within consumes (takeNextJob fuel).
Proof.
  apply within_takeNextJob; unfold consumes; try done.
  - intros w w1 b w2 H1 H2. by etrans.
  - intros w a _. by rewrite act_events.
  - intros w o w' Hlisten. by apply (listen_events _ _ _ Hlisten).
Qed.

Lemma wait_consumes fuel :
  within consumes (waitForNextJob fuel)
  ∧ ∀ docs index, within consumes (takeFirstValidAvailableJob fuel docs index).
Proof.
  apply within_wait; unfold consumes; try done.
  - intros w w1 b w2 H1 H2. by etrans.
  - intros w a _. by rewrite act_events.
  - intros w o w' Hlisten. by apply (listen_events _ _ _ Hlisten).
Qed.

Lemma processJob_consumes jobDefinition : within consumes (processJob jobDefinition).
Proof.
  apply within_processJob; unfold consumes; try done.
  - intros w w1 b w2 H1 H2. by etrans.
  - intros w a _. by rewrite act_events.
Qed.

(** *** How the loop can end *)
Lemma wait_left fuel :
  (∀ w e w', waitForNextJob fuel w = Some (Left e, w') →
             e = newError "Processor is not running" ∨ e = newError "Could not get next job")
  ∧ (∀ docs index w e w',
       takeFirstValidAvailableJob fuel docs index w = Some (Left e, w') →
       e = newError "Processor is not running" ∨ e = newError "Could not get next job").
Proof.
  induction fuel as [|fuel [IHwait IHtake]]; [by split|]. split.
  - intros w e w'. simpl. destruct (decide _); [intros [= <- <-]; by left|].
    unfold TE.chainW, TE.tryCatch, TE.right.
    destruct (listen w) as [[[snapshot|e'|] w1]|]; [|intros [= <- <-]; by right|done..].
    destruct (length snapshot =? 0)%nat; [by apply IHwait|].
    unfold shuffled. destruct (Lodash.shuffle _ _) as [docs random']. by apply IHtake.
  - intros docs index w e w'. simpl.
    destruct (docs !! index) as [jobDocument|]; [|by apply IHwait].
    unfold TE.orElseW. destruct (TE.chainFirstW _ _ w) as [[[a|e'|] w1]|]; try done.
    by apply IHtake.
Qed.

Lemma markJobAsComplete_left jobDefinition execution w e w' :
  markJobAsComplete jobDefinition execution w = Some (Left e, w') → e = TaskOfUndefined.
Proof.
  destruct (next_attempt w) as [[fault|] w1] eqn:Hnext.
  - rewrite (markJobAsComplete_attempt _ _ _ _ _ Hnext).
    destruct (attempt _ _ _) as [[e'|[]] db]; congruence.
  - by rewrite (markJobAsComplete_pending _ _ _ _ Hnext).
Qed.

Lemma processJob_left jobDefinition w e w' :
  processJob jobDefinition w = Some (Left e, w') →
  e = TaskOfUndefined ∨ Response (inl e) ∈ events w.
Proof.
  rewrite processJob_response.
  destruct (next_response w) as [[[e'|response]|] w1] eqn:Hresponse; [| |done].
  - intros [= <- <-]. right. by apply next_response_delivered in Hresponse as [? _].
  - intros ->%markJobAsComplete_left. by left.
Qed.

Lemma takeNextJob_ends fuel w o w' :
  takeNextJob fuel w = Some (o, w') →
  o = Pending
  ∨ ∃ e, o = Left e
         ∧ (e = newError "Processor is not running" ∨ e = newError "Could not get next job"
            ∨ e = TaskOfUndefined ∨ Response (inl e) ∈ events w).
Proof.
  revert w. induction fuel as [|fuel IH]; intros w; [done|]. simpl.
  unfold TE.chainW at 1. unfold TE.chainFirstW, TE.chainW.
  destruct (waitForNextJob fuel w) as [[[jobDefinition|e|] w1]|] eqn:Hwait;
    [|intros [= <- <-]..|done].
  - pose proof (proj1 (wait_consumes fuel) _ _ _ Hwait) as Hs1.
    destruct (processJob jobDefinition w1) as [[[[]|e|] w2]|] eqn:Hprocess;
      [|intros [= <- <-]..|done].
    + pose proof (processJob_consumes _ _ _ _ Hprocess) as Hs2.
      intros Hloop. destruct (IH _ Hloop) as [->|(e & -> & He)]; [by left|].
      right. exists e. split; [done|].
      destruct He as [?|[?|[?|Hin]]]; auto.
      do 3 right. unfold consumes in *.
      destruct Hs2 as [pre2 Hpre2]. destruct Hs1 as [pre1 Hpre1].
      rewrite Hpre1, Hpre2, !elem_of_app. auto.
    + right. exists e. split; [done|].
      destruct (processJob_left _ _ _ _ Hprocess) as [?|Hin]; [by auto|].
      do 3 right. destruct Hs1 as [pre ->]. apply elem_of_app. by right.
    + by left.
  - right. exists e. split; [done|].
    destruct (proj1 (wait_left fuel) _ _ _ Hwait); auto.
  - by left.
Qed.
End Outcomes.

Section Settles.
Context {D : Type} `{!Codec D}.
Import QueryDocumentSnapshot.

Implicit Types (db : Firestore D) (w : World D) (jobDocument : QueryDocumentSnapshot D).
Implicit Types (jobDefinition : JobDefinition) (execution : Execution.t).
Implicit Types (docs : list (QueryDocumentSnapshot D)).

(** *** One level of the recursion *)
Lemma waitForNextJob_unfold fuel w :
  waitForNextJob (S fuel) w
  = if decide (state (this w) = closed) then
      TE.left (newError "Processor is not running") w
    else
      match listen w with
      | Some (Right snapshot, w1) =>
          if (length snapshot =? 0)%nat then waitForNextJob fuel w1
          else shuffled snapshot (λ docs, takeFirstValidAvailableJob fuel docs 0) w1
      | Some (Left e, w1) => Some (Left (newError "Could not get next job"), w1)
      | Some (Pending, w1) => Some (Pending, w1)
      | None => None
      end.
Proof.
  simpl. destruct (decide _); [done|]. unfold TE.chainW, TE.tryCatch, TE.right.
  destruct (listen w) as [[[snapshot|e|] w1]|]; try done.
  by destruct (length snapshot =? 0)%nat.
Qed.

Lemma takeFirstValidAvailableJob_unfold fuel docs index w :
  takeFirstValidAvailableJob (S fuel) docs index w
  = match docs !! index with
    | None => waitForNextJob fuel w
    | Some jobDocument =>
        match decode (data jobDocument) with
        | None => takeFirstValidAvailableJob fuel docs (index + 1) w
        | Some jobDefinition =>
            match markJobAsRunning jobDocument w with
            | Some (Right _, w1) => Some (Right jobDefinition, w1)
            | Some (Left _, w1) => takeFirstValidAvailableJob fuel docs (index + 1) w1
            | Some (Pending, w1) => Some (Pending, w1)
            | None => None
            end
        end
    end.
Proof.
  simpl. destruct (docs !! index) as [jobDocument|]; [|done].
  unfold TE.orElseW, TE.chainFirstW, TE.chainW, TE.fromEither, TE.right, TE.left.
  destruct (decode _); [|done].
  by destruct (markJobAsRunning jobDocument w) as [[[[]|e|] w1]|].
Qed.

Lemma takeNextJob_unfold fuel w :
  takeNextJob (S fuel) w
  = match waitForNextJob fuel w with
    | Some (Right jobDefinition, w1) =>
        match processJob jobDefinition w1 with
        | Some (Right _, w2) => takeNextJob fuel w2
        | Some (Left e, w2) => Some (Left e, w2)
        | Some (Pending, w2) => Some (Pending, w2)
        | None => None
        end
    | Some (Left e, w1) => Some (Left e, w1)
    | Some (Pending, w1) => Some (Pending, w1)
    | None => None
    end.
Proof.
  simpl. unfold TE.chainW at 1. unfold TE.chainFirstW, TE.chainW, TE.right.
  destruct (waitForNextJob fuel w) as [[[jobDefinition|e|] w1]|]; try done.
  by destruct (processJob jobDefinition w1) as [[[[]|e|] w2]|].
Qed.

(** *** The tasks that do not recur always settle *)
Lemma listen_total w : is_Some (listen w).
Proof. unfold listen. by destruct (await_snapshot _ _ _ _) as [[]]. Qed.

Lemma markJobAsRunning_total jobDocument w : is_Some (markJobAsRunning jobDocument w).
Proof.
  destruct (next_attempt w) as [[fault|] w1] eqn:Hnext.
  - rewrite (markJobAsRunning_attempt _ _ _ _ Hnext). by destruct (attempt _ _ _) as [[]].
  - by rewrite (markJobAsRunning_pending _ _ _ Hnext).
Qed.

Lemma processJob_total jobDefinition w : is_Some (processJob jobDefinition w).
Proof.
  rewrite processJob_response. destruct (next_response w) as [[[e|response]|] w1]; try done.
  destruct (next_attempt w1) as [[fault|] w2] eqn:Hnext.
  - rewrite (markJobAsComplete_attempt _ _ _ _ _ Hnext). by destruct (attempt _ _ _) as [[]].
  - by rewrite (markJobAsComplete_pending _ _ _ _ Hnext).
Qed.

Lemma markJobAsRunning_consumes jobDocument : within consumes (markJobAsRunning jobDocument).
Proof.
  apply within_markJobAsRunning; unfold consumes; try done.
  - intros w w1 b w2 H1 H2. by etrans.
  - intros w a _. by rewrite act_events.
Qed.

Lemma processJob_right_consumes jobDefinition w w' :
  processJob jobDefinition w = Some (Right tt, w') →
  (length (events w') < length (events w))%nat.
Proof.
  rewrite processJob_response.
  destruct (next_response w) as [[[e|response]|] w1] eqn:Hresponse; try done.
  apply next_response_delivered in Hresponse as [_ Hlen]. intros Hcomplete.
  assert (Hs : within consumes (markJobAsComplete jobDefinition
    {| Execution.axiosResponse := response;
       Execution.executionStartDate := now (clock w);
       Execution.durationMs := num_sub (getTime (now (clock w1))) (getTime (now (clock w))) |})).
  { apply within_markJobAsComplete; unfold consumes; try done.
    - intros w0 w2 b w3 H1 H2. by etrans.
    - intros w0 a _. by rewrite act_events. }
  apply Hs in Hcomplete. apply suffix_length in Hcomplete. lia.
Qed.

Lemma shuffle_length {A} (l : list A) random : length (Lodash.shuffle l random).1 = length l.
Proof. by rewrite (shuffle_Permutation l random). Qed.

(** *** Enough fuel *)
Lemma wait_settles (n : nat) :
  (∀ w fuel, (length (events w) ≤ n)%nat → (7 * n + 1 ≤ fuel)%nat →
             is_Some (waitForNextJob fuel w))
  ∧ (∀ docs index w fuel,
       (length (events w) ≤ n)%nat → (length docs ≤ 5)%nat →
       (7 * n + 2 + (length docs - index) ≤ fuel)%nat →
       is_Some (takeFirstValidAvailableJob fuel docs index w)).
Proof.
  induction n as [n IH] using lt_wf_ind.
  assert (Hwait : ∀ w fuel, (length (events w) ≤ n)%nat → (7 * n + 1 ≤ fuel)%nat →
                            is_Some (waitForNextJob fuel w)).
  { intros w [|fuel] Hn Hfuel; [lia|]. rewrite waitForNextJob_unfold.
    destruct (decide _); [done|].
    destruct (listen w) as [[[snapshot|e|] w1]|] eqn:Hlisten; [|done|done|].
    - destruct (listen_events _ _ _ Hlisten) as [_ Hlen]. specialize (Hlen eq_refl).
      destruct (listen_resolved _ _ _ Hlisten) as [Hsnapshot Hne].
      destruct (length snapshot =? 0)%nat eqn:Hzero.
      { apply Nat.eqb_eq in Hzero. by destruct snapshot. }
      unfold shuffled. pose proof (shuffle_length snapshot (random w1)) as Hshuffle.
      destruct (Lodash.shuffle _ _) as [docs random']. simpl in Hshuffle.
      assert (Hdocs : (length docs ≤ 5)%nat).
      { rewrite Hshuffle, Hsnapshot. apply queuedQuery_length. }
      destruct n as [|n]; [lia|].
      apply (proj2 (IH n (Nat.lt_succ_diag_r n))).
      + simpl. lia.
      + done.
      + lia.
    - destruct (listen_total w) as [? ?]. congruence. }
  split; [done|].
  intros docs index w fuel. remember (length docs - index)%nat as k eqn:Hk.
  revert index w fuel Hk. induction k as [|k IHk]; intros index w [|fuel] Hk Hn Hdocs Hfuel;
    try lia; rewrite takeFirstValidAvailableJob_unfold.
  - rewrite (proj2 (lookup_ge_None docs index)) by lia. apply Hwait; [done|lia].
  - destruct (docs !! index) as [jobDocument|] eqn:Hdoc.
    2: { apply lookup_ge_None in Hdoc. lia. }
    destruct (decode _) as [jobDefinition|].
    + destruct (markJobAsRunning_total jobDocument w) as [[o w1] Hclaim]. rewrite Hclaim.
      destruct o as [[]|e|]; try done.
      apply markJobAsRunning_consumes in Hclaim. apply suffix_length in Hclaim.
      apply IHk; try done; lia.
    + apply IHk; try done; lia.
Qed.

Lemma takeNextJob_settles (n : nat) w fuel :
  (length (events w) ≤ n)%nat → (7 * n + 2 ≤ fuel)%nat → is_Some (takeNextJob fuel w).
Proof.
  revert w fuel. induction n as [n IH] using lt_wf_ind. intros w [|fuel] Hn Hfuel; [lia|].
  rewrite takeNextJob_unfold.
  destruct (proj1 (wait_settles n) w fuel) as [[o w1] Hwait]; [done|lia|]. rewrite Hwait.
  destruct o as [jobDefinition|e|]; try done.
  apply (proj1 (wait_consumes fuel)) in Hwait. apply suffix_length in Hwait.
  destruct (processJob_total jobDefinition w1) as [[o w2] Hprocess]. rewrite Hprocess.
  destruct o as [[]|e|]; try done.
  apply processJob_right_consumes in Hprocess.
  destruct n as [|n]; [lia|]. apply (IH n); lia.
Qed.

(** *** More fuel, same answer *)
Lemma wait_fuel fuel :
  (∀ w r, waitForNextJob fuel w = Some r → waitForNextJob (S fuel) w = Some r)
  ∧ (∀ docs index w r,
       takeFirstValidAvailableJob fuel docs index w = Some r →
       takeFirstValidAvailableJob (S fuel) docs index w = Some r).
Proof.
  induction fuel as [|fuel [IHwait IHtake]]; [by split|]. split.
  - intros w r. rewrite (waitForNextJob_unfold fuel w), (waitForNextJob_unfold (S fuel) w).
    destruct (decide _); [done|].
    destruct (listen w) as [[[snapshot|e|] w1]|]; try done.
    destruct (length snapshot =? 0)%nat; [by apply IHwait|].
    unfold shuffled. destruct (Lodash.shuffle _ _) as [docs random']. by apply IHtake.
  - intros docs index w r.
    rewrite (takeFirstValidAvailableJob_unfold fuel docs index w),
      (takeFirstValidAvailableJob_unfold (S fuel) docs index w).
    destruct (docs !! index) as [jobDocument|]; [|by apply IHwait].
    destruct (decode _); [|by apply IHtake].
    destruct (markJobAsRunning jobDocument w) as [[[[]|e|] w1]|]; try done. by apply IHtake.
Qed.

Lemma takeNextJob_fuel fuel w r :
  takeNextJob fuel w = Some r → takeNextJob (S fuel) w = Some r.
Proof.
  revert w. induction fuel as [|fuel IH]; intros w; [done|].
  rewrite (takeNextJob_unfold fuel w), (takeNextJob_unfold (S fuel) w).
  destruct (waitForNextJob fuel w) as [[o w1]|] eqn:Hwait; [|done].
  rewrite (proj1 (wait_fuel fuel) _ _ Hwait).
  destruct o as [jobDefinition|e|]; try done.
  destruct (processJob jobDefinition w1) as [[[[]|e|] w2]|]; try done. by apply IH.
Qed.

Lemma takeNextJob_more_fuel fuel fuel' w r :
  (fuel ≤ fuel')%nat → takeNextJob fuel w = Some r → takeNextJob fuel' w = Some r.
Proof. induction 1; [done|]. intros Hr. by apply takeNextJob_fuel, IHle. Qed.

Lemma run_total w fuel : (7 * length (events w) + 2 ≤ fuel)%nat → is_Some (run fuel w).
Proof. intros Hfuel. by apply (takeNextJob_settles (length (events w))). Qed.

(** X10.  The loop comes to rest on any finite course of events: every turn
    takes at least one event, so it ends, or is left waiting once the
    events are used up.  (Seven steps of the recursion per event are
    enough, and more steps give the same result.) *)
Theorem run_settles w fuel :
  (7 * length (events w) + 2 ≤ fuel)%nat →
  ∃ o w', run fuel w = Some (o, w')
          ∧ ∀ fuel', (fuel ≤ fuel')%nat → run fuel' w = Some (o, w').
Proof.
  intros Hfuel. unfold run.
  set (w0 := set_this _ w).
  destruct (takeNextJob_settles (length (events w)) w0 fuel) as [[o w'] Hrun]; [done|done|].
  exists o, w'. split; [done|]. intros fuel' Hle. by apply (takeNextJob_more_fuel fuel).
Qed.

(** X11.  The task of the loop never succeeds.  It stays pending, or it
    ends with a [Left]: the processor was closed, the wait was
    rejected, the completion could not be written, or the callback
    failed (the [Left] is then what the HTTP call was rejected with).
    No failure of a claim is among them. *)
Theorem run_never_succeeds fuel w o w' :
  run fuel w = Some (o, w') →
  o = Pending
  ∨ ∃ e, o = Left e
         ∧ (e = newError "Processor is not running" ∨ e = newError "Could not get next job"
            ∨ e = TaskOfUndefined ∨ Response (inl e) ∈ events w).
Proof. intros Hrun. by apply takeNextJob_ends in Hrun. Qed.
End Settles.

(** ** Jobs *)
Section Jobs.
Context {D : Type} `{!Codec D}.
Import QueryDocumentSnapshot.

Implicit Types (db : Firestore D) (w : World D) (jobDocument : QueryDocumentSnapshot D).
Implicit Types (jobDefinition : JobDefinition) (execution : Execution.t).
Implicit Types (docs : list (QueryDocumentSnapshot D)).

(** X12.  The transaction of [markJobAsComplete] moves the job from [running]
    to [complete], or it writes nothing: when the attempt fails, when
    [complete] holds the job already, when [running] does not hold it.
    The error is then logged, once. *)
Theorem markJobAsComplete_moves_or_logs jobDefinition execution w fault w1 :
  next_attempt w = (Some fault, w1) →
  (fault = None →
   firestore w1 Complete !! JobDefinition.id jobDefinition = None →
   is_Some (firestore w1 Running !! JobDefinition.id jobDefinition) →
   ∃ w2, markJobAsComplete jobDefinition execution w = Some (Right tt, w2)
         ∧ firestore w2 Queued = firestore w1 Queued
         ∧ firestore w2 Running
           = delete (JobDefinition.id jobDefinition) (firestore w1 Running)
         ∧ is_Some (firestore w2 Complete !! JobDefinition.id jobDefinition)
         ∧ (∀ i, i ≠ JobDefinition.id jobDefinition →
                 firestore w2 Complete !! i = firestore w1 Complete !! i)
         ∧ console w2 = console w1)
  ∧ (is_Some fault
     ∨ is_Some (firestore w1 Complete !! JobDefinition.id jobDefinition)
     ∨ firestore w1 Running !! JobDefinition.id jobDefinition = None →
     ∃ e, markJobAsComplete jobDefinition execution w
          = Some (Left TaskOfUndefined, set_console (e :: console w1) w1)).
Proof.
  intros Hnext. rewrite (markJobAsComplete_attempt _ _ _ _ _ Hnext). unfold attempt. split.
  - intros -> Hc [runningDoc Hr].
    destruct (commit _ _) as [e|db'] eqn:Hcommit.
    { unfold completion_writes in Hcommit. simpl in Hcommit. rewrite Hc in Hcommit.
      rewrite update_ne in Hcommit by done. by rewrite Hr in Hcommit. }
    apply completion_committed in Hcommit as (record & _ & _ & Hq' & Hr' & Hc').
    eexists. split; [done|]. simpl. rewrite Hq', Hr', Hc'.
    split; [done|]. split; [done|]. split; [by rewrite lookup_insert_eq|].
    split; [|done]. intros i Hi. by rewrite lookup_insert_ne.
  - intros Hcase. destruct fault as [e|].
    { exists e. by rewrite set_firestore_same. }
    destruct (commit _ _) as [e|db'] eqn:Hcommit.
    { exists e. by rewrite set_firestore_same. }
    apply completion_committed in Hcommit as (record & Hc & [runningDoc Hr] & _).
    destruct Hcase as [[? [=]]|[[? Hc']|Hr']]; congruence.
Qed.

(** X13.  A callback that fails (the HTTP call is rejected) ends the loop
    with that failure: nothing is logged and no transaction is
    attempted, so the job stays in [running]. *)
Theorem processJob_callback_rejected fuel w0 jobDefinition w e w1 :
  waitForNextJob fuel w0 = Some (Right jobDefinition, w) →
  next_response w = (Some (inl e), w1) →
  processJob jobDefinition w = Some (Left e, w1)
  ∧ takeNextJob (S fuel) w0 = Some (Left e, w1)
  ∧ console w1 = console w
  ∧ (undisturbed (events w) → firestore w1 = firestore w).
Proof.
  intros Hwait Hresponse.
  assert (Hprocess : processJob jobDefinition w = Some (Left e, w1)).
  { by rewrite processJob_response, Hresponse. }
  split; [done|]. split; [by rewrite takeNextJob_unfold, Hwait, Hprocess|].
  by apply await_leaves in Hresponse as (? & ? & _).
Qed.

(** X14.  [close()] does not interrupt a job: only [waitForNextJob] looks at
    the state.  A job claimed before or while the processor is closed is
    executed and completed, and the loop ends at the wait that follows. *)
Theorem close_lets_the_job_finish fuel w jobDefinition w1 w2 :
  waitForNextJob (S (S fuel)) w = Some (Right jobDefinition, w1) →
  processJob jobDefinition w1 = Some (Right tt, w2) →
  state (this w2) = closed →
  takeNextJob (S (S (S fuel))) w = Some (Left (newError "Processor is not running"), w2).
Proof.
  intros Hwait Hprocess Hclosed.
  rewrite takeNextJob_unfold, Hwait, Hprocess. by apply takeNextJob_closed.
Qed.

(** *** A wait that is rejected *)
Lemma await_snapshot_rejected promise listener evs w e w' :
  promise ∈ pending w →
  await_snapshot promise listener evs w = (Rejected e, w') →
  Act CallClose ∉ evs →
  ListenError e ∈ evs ∧ state (this w') = state (this w).
Proof.
  revert w. induction evs as [|ev evs IH]; intros w Hp; simpl; [done|].
  assert (Hstep : ∀ w1, promise ∈ pending w1 → state (this w1) = state (this w) →
    await_snapshot promise listener evs w1 = (Rejected e, w') →
    Act CallClose ∉ ev :: evs →
    ListenError e ∈ ev :: evs ∧ state (this w') = state (this w)).
  { intros w1 Hp1 Hs1 Hawait [_ Hevs]%not_elem_of_cons.
    destruct (IH _ Hp1 Hawait Hevs) as [Hin Hs]. split; [by apply list_elem_of_further|].
    by rewrite Hs. }
  destruct ev as [a| |e'|fault|r0]; try (by apply Hstep).
  - destruct (decide _) as [Hin|Hout].
    + intros Hawait Hne. apply (Hstep (act a w)); try done.
      apply act_state. intros ->. apply Hne, list_elem_of_here.
    + intros _ [Ha _]%not_elem_of_cons. destruct a; simpl in *; done.
  - destruct (decide _); [|by apply Hstep]. by destruct (_ =? _)%nat; [apply Hstep|].
  - destruct (decide _); [|by apply Hstep]. intros [= <- <-] _.
    split; [apply list_elem_of_here|done].
Qed.

(** X15.  An error of the listener ends the wait and the loop with the error
    [Could not get next job], whatever the listener reported; and the
    state is not touched: the processor still says [running]. *)
Theorem waitForNextJob_listen_error fuel w e w' :
  state (this w) ≠ closed → listen w = Some (Left e, w') →
  waitForNextJob (S fuel) w = Some (Left (newError "Could not get next job"), w')
  ∧ takeNextJob (S (S fuel)) w = Some (Left (newError "Could not get next job"), w')
  ∧ (Act CallClose ∉ events w →
     ListenError e ∈ events w ∧ state (this w') = state (this w)).
Proof.
  intros Hstate Hlisten.
  assert (Hwait : waitForNextJob (S fuel) w
                  = Some (Left (newError "Could not get next job"), w')).
  { by rewrite waitForNextJob_unfold, decide_False, Hlisten. }
  split; [done|]. split; [by rewrite takeNextJob_unfold, Hwait|].
  intros Hne. unfold listen in Hlisten.
  destruct (await_snapshot _ _ _ _) as [[snapshot|e'|] w1] eqn:Hawait; try done.
  injection Hlisten as <- <-.
  apply await_snapshot_rejected in Hawait; [done| |done].
  simpl. apply elem_of_union_l. by apply elem_of_singleton.
Qed.

(** X16.  [close()] twice is [close()] once. *)
Theorem close_idempotent w : close (close w) = close w.
Proof.
  unfold close. simpl.
  destruct (unsubscribe (this w)) as [l|], (reject (this w)) as [p|]; simpl;
    unfold set_pending, set_listeners, set_this; simpl; f_equal;
    by rewrite ?difference_twice_L.
Qed.
End Jobs.

Section Earliest.
Context {D : Type} `{!Codec D}.
Import QueryDocumentSnapshot.

Implicit Types (db : Firestore D).

#[local] Existing Instances entry_le_total entry_le_trans.

(** X17.  The batch is made of the earliest: a document of [queued] that has
    a [scheduledAt] is in it, unless the batch is full of documents
    scheduled no later.  No document comes twice. *)
Theorem queuedQuery_earliest db :
  NoDup (id <$> queuedQuery db)
  ∧ ∀ i d, db Queued !! i = Some d → is_Some (scheduledAt_key d) →
           {| id := i; data := d |} ∈ queuedQuery db
           ∨ (length (queuedQuery db) = 5%nat
              ∧ ∀ doc, doc ∈ queuedQuery db → scheduledAt_le doc {| id := i; data := d |}).
Proof.
  unfold queuedQuery.
  set (entries := filter (λ entry, is_Some (scheduledAt_key entry.2)) (map_to_list (db Queued))).
  set (sorted := merge_sort entry_le entries).
  assert (Hperm : sorted ≡ₚ entries) by apply merge_sort_Permutation.
  assert (Hsorted : StronglySorted entry_le sorted).
  { apply StronglySorted_merge_sort; apply _. }
  split.
  - rewrite <- list_fmap_compose.
    change (NoDup ((take 5 sorted).*1)).
    apply sublist_NoDup with (sorted.*1); [|apply fmap_sublist, sublist_take].
    rewrite Hperm. subst entries.
    apply sublist_NoDup with ((map_to_list (db Queued)).*1);
      [apply NoDup_fst_map_to_list|apply fmap_sublist, sublist_filter].
  - intros i d Hd Hkey.
    assert (Hin : (i, d) ∈ sorted).
    { rewrite Hperm. apply list_elem_of_filter. split; [done|]. by apply elem_of_map_to_list. }
    rewrite <- (take_drop 5 sorted) in Hin, Hsorted.
    apply elem_of_app in Hin as [Hin|Hin].
    + left. apply list_elem_of_fmap. by exists (i, d).
    + right. split.
      * rewrite length_fmap, length_take. apply list_elem_of_lookup in Hin as [j Hj].
        apply lookup_lt_Some in Hj. rewrite length_drop in Hj. lia.
      * intros doc ([i' d'] & -> & Hdoc)%list_elem_of_fmap.
        pose proof (StronglySorted_app_1_elem_of _ _ _ _ _ Hsorted Hdoc Hin) as Hle.
        unfold scheduledAt_le. simpl.
        destruct Hle as [Hlt|[Heq _]]; unfold key_of in *; simpl in *; lia.
Qed.
End Earliest.

Section Turn.
Context {D : Type} `{!Codec D}.
Import QueryDocumentSnapshot.

Implicit Types (db : Firestore D) (w : World D) (jobDocument : QueryDocumentSnapshot D).
Implicit Types (jobDefinition : JobDefinition) (execution : Execution.t).

Lemma next_attempt_leaves w fault w1 :
  next_attempt w = (fault, w1) →
  console w1 = console w
  ∧ events w1 `suffix_of` events w
  ∧ (undisturbed (events w) → firestore w1 = firestore w).
Proof. by intros (? & ? & ? & _)%await_leaves. Qed.

Lemma markJobAsRunning_right jobDocument w w1 :
  markJobAsRunning jobDocument w = Some (Right tt, w1) →
  ∃ wa, next_attempt w = (Some None, wa)
        ∧ commit (claim_writes jobDocument) (firestore wa) = inr (firestore w1)
        ∧ events w1 = events wa ∧ console w1 = console wa.
Proof.
  destruct (next_attempt w) as [[fault|] wa] eqn:Hnext.
  - rewrite (markJobAsRunning_attempt _ _ _ _ Hnext). unfold attempt.
    destruct fault as [e|]; [done|].
    destruct (commit _ _) as [e|db] eqn:Hcommit; [done|].
    intros [= <-]. by exists wa.
  - by rewrite (markJobAsRunning_pending _ _ _ Hnext).
Qed.

Lemma markJobAsComplete_right jobDefinition execution w w1 :
  markJobAsComplete jobDefinition execution w = Some (Right tt, w1) →
  ∃ wa, next_attempt w = (Some None, wa)
        ∧ commit (completion_writes jobDefinition execution) (firestore wa)
          = inr (firestore w1)
        ∧ events w1 = events wa ∧ console w1 = console wa.
Proof.
  destruct (next_attempt w) as [[fault|] wa] eqn:Hnext.
  - rewrite (markJobAsComplete_attempt _ _ _ _ _ Hnext). unfold attempt.
    destruct fault as [e|]; [done|].
    destruct (commit _ _) as [e|db] eqn:Hcommit; [done|].
    intros [= <-]. by exists wa.
  - by rewrite (markJobAsComplete_pending _ _ _ _ Hnext).
Qed.

(** X18.  One turn of the loop that succeeds, with no other client writing:
    the job has left [queued] and is in [complete], [running] is what
    it was, and nothing is logged.  (The document is completed under
    the id its data decodes to, which has to be its own.) *)
Theorem claim_then_complete jobDocument jobDefinition w w1 w2 :
  undisturbed (events w) →
  JobDefinition.id jobDefinition = id jobDocument →
  markJobAsRunning jobDocument w = Some (Right tt, w1) →
  processJob jobDefinition w1 = Some (Right tt, w2) →
  firestore w2 Queued = delete (id jobDocument) (firestore w Queued)
  ∧ firestore w2 Running = firestore w Running
  ∧ firestore w Complete !! id jobDocument = None
  ∧ is_Some (firestore w2 Complete !! id jobDocument)
  ∧ (∀ i, i ≠ id jobDocument → firestore w2 Complete !! i = firestore w Complete !! i)
  ∧ console w2 = console w.
Proof.
  intros Hw Hid Hclaim Hprocess.
  apply markJobAsRunning_right in Hclaim as (wa & Hnext & Hcommit & Hevents1 & Hconsole1).
  apply next_attempt_leaves in Hnext as (Hca & Hsa & Hfa). specialize (Hfa Hw).
  pose proof (Forall_suffix _ _ _ Hsa Hw) as Hwa.
  apply claim_committed in Hcommit as (Hq & Hr & Hq1 & Hr1 & Hc1).
  rewrite Hfa in *.
  rewrite processJob_response in Hprocess.
  destruct (next_response w1) as [[[e|response]|] wb] eqn:Hresponse; try done.
  apply await_leaves in Hresponse as (Hcb & Hfb & Hsb & _).
  rewrite Hevents1 in Hfb, Hsb. specialize (Hfb Hwa).
  pose proof (Forall_suffix _ _ _ Hsb Hwa) as Hwb.
  apply markJobAsComplete_right in Hprocess as (wc & Hnext & Hcommit & _ & Hconsole2).
  apply next_attempt_leaves in Hnext as (Hcc & _ & Hfc). specialize (Hfc Hwb).
  apply completion_committed in Hcommit as (record & Hc & Hrun & Hq2 & Hr2 & Hc2).
  rewrite Hid in *. rewrite Hfc, Hfb in *.
  rewrite Hq2, Hr2, Hc2, Hq1, Hr1, Hc1 in *.
  split; [done|]. split; [by rewrite delete_insert_eq, delete_id|].
  split; [done|]. split; [by rewrite lookup_insert_eq|].
  split; [intros i Hi; by rewrite lookup_insert_ne|]. congruence.
Qed.
End Turn.

Section Claimed.
Context {D : Type} `{!Codec D}.
Import QueryDocumentSnapshot.

Implicit Types (db : Firestore D) (w : World D) (jobDocument : QueryDocumentSnapshot D).
Implicit Types (jobDefinition : JobDefinition) (execution : Execution.t).
Implicit Types (docs : list (QueryDocumentSnapshot D)).

(** X19.  A job is claimed once: after [markJobAsRunning] has succeeded, and
    as long as no other client puts the document back, no claim of the
    same document succeeds. *)
Theorem markJobAsRunning_once jobDocument w w1 o w2 :
  markJobAsRunning jobDocument w = Some (Right tt, w1) →
  undisturbed (events w1) →
  markJobAsRunning jobDocument w1 = Some (o, w2) →
  o = Pending ∨ (∃ e, o = Left e) ∧ firestore w2 = firestore w1.
Proof.
  intros Hclaim Hw1 Hagain.
  apply markJobAsRunning_right in Hclaim as (wa & _ & Hcommit & _).
  apply claim_committed in Hcommit as (_ & _ & Hq1 & _).
  destruct (next_attempt w1) as [[fault|] wb] eqn:Hnext.
  - pose proof (next_attempt_leaves _ _ _ Hnext) as (_ & _ & Hfb). specialize (Hfb Hw1).
    rewrite (markJobAsRunning_attempt _ _ _ _ Hnext) in Hagain. unfold attempt in Hagain.
    right. destruct fault as [e|].
    { injection Hagain as <- <-. split; [by eexists|]. by rewrite set_firestore_same. }
    rewrite commit_claim, Hfb, Hq1, lookup_delete_eq in Hagain.
    injection Hagain as <- <-. split; [by eexists|]. simpl. by rewrite <- Hfb.
  - rewrite (markJobAsRunning_pending _ _ _ Hnext) in Hagain. injection Hagain as <- <-.
    by left.
Qed.

Lemma wait_claimed fuel :
  (∀ w jobDefinition w',
     waitForNextJob fuel w = Some (Right jobDefinition, w') →
     ∃ jobDocument,
       decode (data jobDocument) = Some jobDefinition
       ∧ firestore w' Running !! id jobDocument = Some (data jobDocument)
       ∧ firestore w' Queued !! id jobDocument = None)
  ∧ (∀ docs index w jobDefinition w',
       takeFirstValidAvailableJob fuel docs index w = Some (Right jobDefinition, w') →
       ∃ jobDocument,
         decode (data jobDocument) = Some jobDefinition
         ∧ firestore w' Running !! id jobDocument = Some (data jobDocument)
         ∧ firestore w' Queued !! id jobDocument = None).
Proof.
  induction fuel as [|fuel [IHwait IHtake]]; [by split|]. split.
  - intros w jobDefinition w'. rewrite waitForNextJob_unfold.
    destruct (decide _); [done|].
    destruct (listen w) as [[[snapshot|e|] w1]|]; try done.
    destruct (length snapshot =? 0)%nat; [by apply IHwait|].
    unfold shuffled. destruct (Lodash.shuffle _ _) as [docs random']. by apply IHtake.
  - intros docs index w jobDefinition w'. rewrite takeFirstValidAvailableJob_unfold.
    destruct (docs !! index) as [jobDocument|]; [|by apply IHwait].
    destruct (decode (data jobDocument)) as [jobDefinition'|] eqn:Hdecode; [|by apply IHtake].
    destruct (markJobAsRunning jobDocument w) as [[[[]|e|] w1]|] eqn:Hclaim; try done;
      [|by apply IHtake].
    intros [= <- <-]. exists jobDocument. split; [done|].
    apply markJobAsRunning_right in Hclaim as (wa & _ & Hcommit & _).
    apply claim_committed in Hcommit as (_ & _ & -> & -> & _).
    by rewrite lookup_insert_eq, lookup_delete_eq.
Qed.

(** X20.  The job a wait hands over is a job just claimed: in the world
    handed over, a document that decodes to it is in [running], and is
    not in [queued]. *)
Theorem waitForNextJob_hands_over_a_claimed_job fuel w jobDefinition w' :
  waitForNextJob fuel w = Some (Right jobDefinition, w') →
  ∃ jobDocument,
    decode (data jobDocument) = Some jobDefinition
    ∧ firestore w' Running !! id jobDocument = Some (data jobDocument)
    ∧ firestore w' Queued !! id jobDocument = None.
Proof. apply wait_claimed. Qed.

(** *** What is logged *)
Lemma wait_silent fuel : within silent (waitForNextJob fuel).
Proof.
  apply within_wait; unfold silent; try done.
  - intros w w1 b w2 H1 H2. congruence.
  - intros w a _. apply act_console.
  - intros w o w'. unfold listen.
    assert (Hgen : ∀ promise listener evs w1 r w2,
      await_snapshot promise listener evs w1 = (r, w2) → console w2 = console w1).
    { intros promise listener evs. induction evs as [|ev evs IH]; intros w1 r w2; simpl.
      - by intros [= <- <-].
      - destruct ev as [a| |e|fault|r0]; try (by apply IH).
        + destruct (decide _).
          * intros Hawait. rewrite (IH _ _ _ Hawait). apply act_console.
          * intros [= <- <-]. simpl. apply act_console.
        + destruct (decide _); [|by apply IH].
          destruct (_ =? _)%nat; [by apply IH|]. intros [= <- <-]. simpl.
          by destruct (unsubscribe (this w1)).
        + destruct (decide _); [|by apply IH]. by intros [= <- <-]. }
    destruct (await_snapshot _ _ _ _) as [r w1] eqn:Hawait. apply Hgen in Hawait.
    by destruct r; intros [= <- <-].
Qed.

Lemma processJob_logs jobDefinition w o w' :
  processJob jobDefinition w = Some (o, w') →
  console w' = console w ∨ (o = Left TaskOfUndefined ∧ ∃ e, console w' = e :: console w).
Proof.
  rewrite processJob_response.
  destruct (next_response w) as [r w1] eqn:Hresponse.
  apply await_leaves in Hresponse as (Hc1 & _).
  destruct r as [[e|response]|]; [by intros [= <- <-]; left| |by intros [= <- <-]; left].
  destruct (next_attempt w1) as [[fault|] w2] eqn:Hnext.
  - pose proof (next_attempt_leaves _ _ _ Hnext) as (Hc2 & _).
    rewrite (markJobAsComplete_attempt _ _ _ _ _ Hnext).
    destruct (attempt _ _ _) as [[e|[]] db]; intros [= <- <-]; simpl.
    + right. split; [done|]. exists e. congruence.
    + left. congruence.
  - pose proof (next_attempt_leaves _ _ _ Hnext) as (Hc2 & _).
    rewrite (markJobAsComplete_pending _ _ _ _ Hnext). intros [= <- <-]. left. congruence.
Qed.

(** X21.  The loop logs one thing only, the failure to write a completion,
    and that is the last thing it does: no failure of a claim, of the
    callback or of the listener is logged. *)
Theorem run_logs_the_completion_failure_only fuel w o w' :
  run fuel w = Some (o, w') →
  console w' = console w ∨ (o = Left TaskOfUndefined ∧ ∃ e, console w' = e :: console w).
Proof.
  unfold run. set (w0 := set_this _ w). change (console w) with (console w0).
  generalize w0. clear w w0. induction fuel as [|fuel IH]; intros w; [done|].
  rewrite takeNextJob_unfold.
  destruct (waitForNextJob fuel w) as [[[jobDefinition|e|] w1]|] eqn:Hwait; try done.
  - apply wait_silent in Hwait. unfold silent in Hwait.
    destruct (processJob jobDefinition w1) as [[[[]|e|] w2]|] eqn:Hprocess; try done.
    + apply processJob_logs in Hprocess as [Hc|[[=] _]].
      intros Hloop. rewrite <- Hwait, <- Hc. by apply IH.
    + intros [= <- <-]. rewrite <- Hwait. by apply (processJob_logs jobDefinition w1).
    + intros [= <- <-]. rewrite <- Hwait. by apply (processJob_logs jobDefinition w1).
  - intros [= <- <-]. left. by apply wait_silent in Hwait.
  - intros [= <- <-]. left. by apply wait_silent in Hwait.
Qed.
End Claimed.

(** ** The further theorems at work *)
Import Js Grammar DateFunctions Parts Units DateFns QueryDocumentSnapshot Sample.

Lemma option_cases {A} (x : option A) : {a | x = Some a} + {x = None}.
Proof. destruct x as [a|]; [left; by exists a|by right]. Qed.


Lemma sign_minus : "-" ∈ [EmptyString; "+"; "-"].
Proof. rewrite !elem_of_cons. tauto. Qed.

Lemma sign_none : EmptyString ∈ [EmptyString; "+"; "-"].
Proof. apply list_elem_of_here. Qed.


Lemma evaluate_add_then_subtract_witness :
  ∃ d, evaluate (utc_host (mkDate (Some 0))) "now | add 90m"
         {| now := mkDate (Some 1600000000000) |} = Return d
       ∧ evaluate (utc_host (mkDate (Some 7))) "now | add -90m" {| now := d |}
         = Return (mkDate (Some 1600000000000)).
Proof.
  apply (evaluate_add_then_subtract (utc_host (mkDate (Some 0))) (utc_host (mkDate (Some 7)))
           {| now := mkDate (Some 1600000000000) |} "90" "m" 60000 1600000000000);
    first [reflexivity | discriminate | by vm_compute].
Defined.

Lemma evaluate_add_month_witness :
  getFullYear (utc_host (mkDate (Some 0))) (mkDate (Some 1709380800000)) = Some 2024
  ∧ getMonth (utc_host (mkDate (Some 0))) (mkDate (Some 1709380800000)) = Some 2
  ∧ getDate (utc_host (mkDate (Some 0))) (mkDate (Some 1709380800000)) = Some 2.
Proof.
  pose proof (evaluate_add_month (utc_host (mkDate (Some 0))) 0 (λ _ _, eq_refl)
                {| now := mkDate (Some 1706702400000) |} EmptyString "1" 2024 0 31
                (mkDate (Some 1709380800000))
                sign_none eq_refl ltac:(discriminate) eq_refl ltac:(lia) eq_refl eq_refl
                eq_refl ltac:(by eexists)) as Hfields.
  cbv zeta in Hfields. destruct Hfields as (_ & _ & _ & _ & _ & Hover).
  apply Hover. reflexivity.
Defined.

Lemma evaluate_add_year_witness :
  getFullYear (utc_host (mkDate (Some 0))) (mkDate (Some (-1446595200000))) = Some 1924
  ∧ getMonth (utc_host (mkDate (Some 0))) (mkDate (Some (-1446595200000))) = Some 1
  ∧ getDate (utc_host (mkDate (Some 0))) (mkDate (Some (-1446595200000))) = Some 29.
Proof.
  pose proof (evaluate_add_year (utc_host (mkDate (Some 0))) 0 (λ _ _, eq_refl)
                {| now := mkDate (Some 1709164800000) |} "-" "2000" 2024 1 29
                (mkDate (Some (-1446595200000)))
                sign_minus eq_refl ltac:(discriminate) eq_refl eq_refl eq_refl
                eq_refl ltac:(by eexists)) as Hfields.
  cbv zeta in Hfields. destruct Hfields as (_ & _ & _ & _ & Hfits & _).
  apply Hfits. by vm_compute.
Defined.


Lemma markJobAsComplete_moves_or_logs_witness :
  (∃ w2, markJobAsComplete (job "a" 10)
           {| Execution.axiosResponse := {| Axios.status := 200 |};
              Execution.durationMs := Some 42;
              Execution.executionStartDate := mkDate (Some 100) |}
           (world a_running 142 [] [TxAttempt None])
         = Some (Right tt, w2)
         ∧ firestore w2 Queued = a_running Queued
         ∧ firestore w2 Running = delete "a" (a_running Running)
         ∧ is_Some (firestore w2 Complete !! "a"))
  ∧ (∃ e, markJobAsComplete (job "a" 10)
            {| Execution.axiosResponse := {| Axios.status := 200 |};
               Execution.durationMs := Some 42;
               Execution.executionStartDate := mkDate (Some 100) |}
            (world two_jobs 142 [] [TxAttempt None])
          = Some (Left TaskOfUndefined, set_console [e] (world two_jobs 142 [] []))).
Proof.
  split.
  - destruct (proj1 (markJobAsComplete_moves_or_logs (job "a" 10)
               {| Execution.axiosResponse := {| Axios.status := 200 |};
                  Execution.durationMs := Some 42;
                  Execution.executionStartDate := mkDate (Some 100) |}
               (world a_running 142 [] [TxAttempt None]) None
               (world a_running 142 [] []) eq_refl) eq_refl eq_refl ltac:(by eexists))
      as (w2 & Hrun & Hq & Hr & Hc & _).
    by exists w2.
  - apply (proj2 (markJobAsComplete_moves_or_logs (job "a" 10)
               {| Execution.axiosResponse := {| Axios.status := 200 |};
                  Execution.durationMs := Some 42;
                  Execution.executionStartDate := mkDate (Some 100) |}
               (world two_jobs 142 [] [TxAttempt None]) None
               (world two_jobs 142 [] []) eq_refl)).
    right. right. reflexivity.
Defined.

Lemma processJob_callback_rejected_witness :
  fst <$> takeNextJob 4
            (world two_jobs 0 [] [Snapshot; TxAttempt None; Response (inl unavailable)])
  = Some (Left unavailable).
Proof.
  assert (Hall : ('(o, w) ← waitForNextJob 3
                               (world two_jobs 0 []
                                  [Snapshot; TxAttempt None; Response (inl unavailable)]);
                  match o with
                  | Right _ => Some (next_response w).1
                  | _ => None
                  end)
                 = Some (Some (inl unavailable))) by (vm_compute; reflexivity).
  destruct (option_cases
              (waitForNextJob 3
                 (world two_jobs 0 [] [Snapshot; TxAttempt None; Response (inl unavailable)])))
    as [[[[jobDefinition|e|] w] Hwait]|Hwait]; rewrite Hwait in Hall; simpl in Hall;
    try discriminate Hall.
  destruct (next_response w) as [r w1] eqn:Hresponse.
  simpl in Hall. injection Hall as ->.
  destruct (processJob_callback_rejected 3 _ jobDefinition w unavailable w1 Hwait Hresponse)
    as (_ & Htake & _).
  by rewrite Htake.
Defined.

Lemma run_never_succeeds_witness :
  ∃ o w', run 30 (world two_jobs 0 [] [Snapshot; TxAttempt None; Response (inl unavailable)])
          = Some (o, w')
          ∧ (o = Pending
             ∨ ∃ e, o = Left e
                    ∧ (e = newError "Processor is not running"
                       ∨ e = newError "Could not get next job"
                       ∨ e = TaskOfUndefined
                       ∨ Response (inl e)
                         ∈ [Snapshot; TxAttempt None; Response (D:=Data) (inl unavailable)])).
Proof.
  destruct (run_total (world two_jobs 0 [] [Snapshot; TxAttempt None; Response (inl unavailable)]) 30 ltac:(simpl; lia))
    as [[o w'] Hrun].
  exists o, w'. split; [done|]. exact (run_never_succeeds _ _ _ _ Hrun).
Defined.

Lemma run_settles_witness :
  ∃ o w', run 23 (world two_jobs 0 [] [Snapshot; TxAttempt None; Response (inl unavailable)])
          = Some (o, w')
          ∧ ∀ fuel', (23 ≤ fuel')%nat →
              run fuel' (world two_jobs 0 [] [Snapshot; TxAttempt None; Response (inl unavailable)])
              = Some (o, w').
Proof.
  apply (run_settles
           (world two_jobs 0 [] [Snapshot; TxAttempt None; Response (inl unavailable)]) 23).
  simpl. lia.
Defined.

Lemma two_jobs_exclusive : exclusive two_jobs.
Proof.
  intros c1 c2 i. destruct c1, c2; simpl; rewrite ?lookup_empty; try done;
    by intros ? ?; try match goal with H : is_Some None |- _ => destruct H as [? [=]] end.
Qed.

Lemma turn_undisturbed :
  undisturbed [Snapshot; TxAttempt None; Response (D:=Data) (inr {| Axios.status := 200 |});
               TxAttempt None].
Proof. by repeat constructor. Qed.

Lemma run_keeps_every_job_witness :
  ∃ o w', run 30 (world two_jobs 0 []
                    [Snapshot; TxAttempt None; Response (inr {| Axios.status := 200 |});
                     TxAttempt None])
          = Some (o, w')
          ∧ (∀ i, held two_jobs i ↔ held (firestore w') i)
          ∧ exclusive (firestore w').
Proof.
  destruct (run_total (world two_jobs 0 []
                      [Snapshot; TxAttempt None; Response (inr {| Axios.status := 200 |});
                       TxAttempt None]) 30 ltac:(simpl; lia))
    as [[o w'] Hrun].
  exists o, w'. split; [done|].
  destruct (run_keeps_every_job 30
            (world two_jobs 0 []
              [Snapshot; TxAttempt None; Response (inr {| Axios.status := 200 |});
               TxAttempt None])
            o w' turn_undisturbed Hrun) as [Hheld Hexclusive].
  split; [done|]. apply Hexclusive, two_jobs_exclusive.
Defined.

Lemma run_drains_queue_fills_complete_witness :
  ∃ o w', run 30 (world two_jobs 0 []
                    [Snapshot; TxAttempt None; Response (inr {| Axios.status := 200 |});
                     TxAttempt None])
          = Some (o, w')
          ∧ firestore w' Queued ⊆ two_jobs Queued ∧ two_jobs Complete ⊆ firestore w' Complete.
Proof.
  destruct (run_total (world two_jobs 0 []
                      [Snapshot; TxAttempt None; Response (inr {| Axios.status := 200 |});
                       TxAttempt None]) 30 ltac:(simpl; lia))
    as [[o w'] Hrun].
  exists o, w'. split; [done|].
  exact (run_drains_queue_fills_complete 30
           (world two_jobs 0 []
              [Snapshot; TxAttempt None; Response (inr {| Axios.status := 200 |});
               TxAttempt None])
           o w' turn_undisturbed Hrun).
Defined.

Lemma run_detaches_its_listeners_witness :
  ∃ o w', run 30 (world two_jobs 0 [] [Snapshot; TxAttempt None]) = Some (o, w')
          ∧ listeners (close w') ⊆ ∅ ∧ pending (close w') ⊆ ∅.
Proof.
  destruct (run_total (world two_jobs 0 [] [Snapshot; TxAttempt None]) 30 ltac:(simpl; lia))
    as [[o w'] Hrun].
  exists o, w'. split; [done|].
  exact (proj2 (run_detaches_its_listeners _ _ _ _ Hrun)).
Defined.

Lemma close_lets_the_job_finish_witness :
  fst <$> takeNextJob 4
            (world two_jobs 0 []
               [Snapshot; TxAttempt None; Act CallClose;
                Response (inr {| Axios.status := 200 |}); TxAttempt None])
  = Some (Left (newError "Processor is not running")).
Proof.
  assert (Hall : (λ '(o, w), (o, state (this w)))
                   <$> ('(o, w) ← waitForNextJob 3
                                    (world two_jobs 0 []
                                       [Snapshot; TxAttempt None; Act CallClose;
                                        Response (inr {| Axios.status := 200 |});
                                        TxAttempt None]);
                        match o with
                        | Right jobDefinition => processJob jobDefinition w
                        | _ => None
                        end)
                 = Some (Right tt, closed)) by (vm_compute; reflexivity).
  destruct (option_cases
              (waitForNextJob 3
                 (world two_jobs 0 []
                    [Snapshot; TxAttempt None; Act CallClose;
                     Response (inr {| Axios.status := 200 |}); TxAttempt None])))
    as [[[[jobDefinition|e|] w1] Hwait]|Hwait]; rewrite Hwait in Hall; simpl in Hall;
    try discriminate Hall.
  destruct (processJob jobDefinition w1) as [[o w2]|] eqn:Hprocess;
    simpl in Hall; [|discriminate Hall].
  injection Hall as -> Hclosed.
  by rewrite (close_lets_the_job_finish 1 _ jobDefinition w1 w2 Hwait Hprocess Hclosed).
Defined.

Lemma waitForNextJob_listen_error_witness :
  fst <$> waitForNextJob 1 (world two_jobs 0 [] [ListenError unavailable; Snapshot])
  = Some (Left (newError "Could not get next job")).
Proof.
  destruct (option_cases (listen (world two_jobs 0 [] [ListenError unavailable; Snapshot])))
    as [[[[snapshot|e|] w'] Hlisten]|Hlisten]; try (vm_compute in Hlisten; discriminate).
  destruct (waitForNextJob_listen_error 0
              (world two_jobs 0 [] [ListenError unavailable; Snapshot]) e w'
              ltac:(simpl; discriminate) Hlisten) as [Hwait _].
  by rewrite Hwait.
Defined.

Lemma claim_then_complete_witness :
  ∃ w1 w2,
    markJobAsRunning snapshot_a
      (world two_jobs 0 []
         [TxAttempt None; Response (inr {| Axios.status := 200 |}); TxAttempt None])
    = Some (Right tt, w1)
    ∧ processJob (job "a" 10) w1 = Some (Right tt, w2)
    ∧ firestore w2 Queued = delete "a" (two_jobs Queued)
    ∧ firestore w2 Running = two_jobs Running
    ∧ is_Some (firestore w2 Complete !! "a").
Proof.
  assert (Hall : fst <$> ('(o, w) ← markJobAsRunning snapshot_a
                                      (world two_jobs 0 []
                                         [TxAttempt None;
                                          Response (inr {| Axios.status := 200 |});
                                          TxAttempt None]);
                          match o with
                          | Right _ => processJob (job "a" 10) w
                          | _ => None
                          end)
                 = Some (Right tt)) by (vm_compute; reflexivity).
  destruct (option_cases
              (markJobAsRunning snapshot_a
                 (world two_jobs 0 []
                    [TxAttempt None; Response (inr {| Axios.status := 200 |});
                     TxAttempt None])))
    as [[[[[]|e|] w1] Hclaim]|Hclaim]; rewrite Hclaim in Hall; simpl in Hall;
    try discriminate Hall.
  destruct (processJob (job "a" 10) w1) as [[o w2]|] eqn:Hprocess;
    simpl in Hall; [|discriminate Hall].
  injection Hall as ->.
  exists w1, w2. split; [done|]. split; [done|].
  destruct (claim_then_complete snapshot_a (job "a" 10)
              (world two_jobs 0 []
                 [TxAttempt None; Response (inr {| Axios.status := 200 |}); TxAttempt None])
              w1 w2 ltac:(by repeat constructor) eq_refl Hclaim Hprocess)
    as (Hq & Hr & _ & Hc & _).
  done.
Defined.

Lemma markJobAsRunning_once_witness :
  ∃ w1 o w2,
    markJobAsRunning snapshot_a (world two_jobs 0 [] [TxAttempt None; TxAttempt None])
    = Some (Right tt, w1)
    ∧ markJobAsRunning snapshot_a w1 = Some (o, w2)
    ∧ (o = Pending ∨ (∃ e, o = Left e) ∧ firestore w2 = firestore w1).
Proof.
  assert (Hall : ('(o, w) ← markJobAsRunning snapshot_a
                              (world two_jobs 0 [] [TxAttempt None; TxAttempt None]);
                  match o with
                  | Right _ => Some (events w)
                  | _ => None
                  end)
                 = Some [TxAttempt None]) by (vm_compute; reflexivity).
  destruct (option_cases
              (markJobAsRunning snapshot_a
                 (world two_jobs 0 [] [TxAttempt None; TxAttempt None])))
    as [[[[[]|e|] w1] Hclaim]|Hclaim]; rewrite Hclaim in Hall; simpl in Hall;
    try discriminate Hall.
  destruct (markJobAsRunning_total snapshot_a w1) as [[o w2] Hagain].
  exists w1, o, w2. split; [done|]. split; [done|].
  apply (markJobAsRunning_once snapshot_a
           (world two_jobs 0 [] [TxAttempt None; TxAttempt None]) w1 o w2 Hclaim);
    [|done].
  injection Hall as ->. by repeat constructor.
Defined.

Lemma waitForNextJob_hands_over_a_claimed_job_witness :
  ∃ jobDefinition w' jobDocument,
    waitForNextJob 3 (world two_jobs 0 [] [Snapshot; TxAttempt None])
    = Some (Right jobDefinition, w')
    ∧ decode (data jobDocument) = Some jobDefinition
    ∧ firestore w' Running !! id jobDocument = Some (data jobDocument)
    ∧ firestore w' Queued !! id jobDocument = None.
Proof.
  assert (Hall : fst <$> waitForNextJob 3 (world two_jobs 0 [] [Snapshot; TxAttempt None])
                 = Some (Right (job "b" 5))) by (vm_compute; reflexivity).
  destruct (option_cases (waitForNextJob 3 (world two_jobs 0 [] [Snapshot; TxAttempt None])))
    as [[[[jobDefinition|e|] w'] Hwait]|Hwait]; rewrite Hwait in Hall; simpl in Hall;
    try discriminate Hall.
  destruct (waitForNextJob_hands_over_a_claimed_job 3 _ jobDefinition w' Hwait)
    as (jobDocument & ? & ? & ?).
  by exists jobDefinition, w', jobDocument.
Defined.

Lemma run_logs_the_completion_failure_only_witness :
  ∃ o w', run 37 (world (store [("b", doc "b" 5)] [] [("b", doc "b" 5)]) 100 []
                    [Snapshot; TxAttempt None; Response (inr {| Axios.status := 200 |});
                     TxAttempt None; Snapshot])
          = Some (o, w')
          ∧ (console w' = [] ∨ o = Left TaskOfUndefined ∧ ∃ e, console w' = [e]).
Proof.
  destruct (run_total
              (world (store [("b", doc "b" 5)] [] [("b", doc "b" 5)]) 100 []
                 [Snapshot; TxAttempt None; Response (inr {| Axios.status := 200 |});
                  TxAttempt None; Snapshot]) 37 ltac:(simpl; lia))
    as [[o w'] Hrun].
  exists o, w'. split; [done|].
  exact (run_logs_the_completion_failure_only 37
           (world (store [("b", doc "b" 5)] [] [("b", doc "b" 5)]) 100 []
              [Snapshot; TxAttempt None; Response (inr {| Axios.status := 200 |});
               TxAttempt None; Snapshot]) o w' Hrun).
Defined.
